(** * LRUCache (src/lru.ts): a shallow embedding and its verification

    The cache of [src/lru.ts] is a pointer structure: [Entry] objects are
    allocated by [put], linked to one another through their [newer] and
    [older] fields, and referenced from the cache's [keymap], [head] and
    [tail].  Object identity matters ([entry === this.tail]) and entries are
    mutated through aliases, so the embedding keeps an explicit object store:

    - an object reference is an address, the index of the object in the store;
    - [{ key, value }] allocates at the end of the store; nothing is ever
      freed (an entry that the program no longer references is garbage);
    - a field assignment [x.f = v] rewrites the store in place at [x].

    JavaScript numbers ([limit], [size]) are integers here ([Z]); [undefined]
    in an optional position is [None].  A method is a function from the cache
    to its result and the cache after the call.

    The [keymap] is a plain object, [{}], so a read [this.keymap[key]] that
    finds no property of the object itself goes on to its prototype,
    [Object.prototype].  The embedding follows the read there:

    - the functions that [Object.prototype] holds ([constructor],
      [toString], [valueOf], ...) are objects of the store, allocated before
      any entry; as in a runtime where nothing else has written to them,
      they have neither [key] nor [value] nor links at first, and the
      methods link them and write to them like entries when a lookup returns
      them;
    - [this.keymap["__proto__"] = entry] creates no property: it makes
      [entry] the prototype of the index, through which later lookups go
      first, and no [delete] undoes it;
    - a lookup that ends on a value that is not an object of the store
      ([Object.prototype] itself, the string [entry.key], the payload
      [entry.value]) is [Foreign]: what [get], [set] and [remove] do with
      such a value is not part of the embedding, and they have no result
      there.

    The file has three parts: the embedding of the class, with the
    predicates used to speak about it; the lemmas on the store, on doubly
    linked segments and on what each method does to the chain; and the
    properties of the specification, C1 to C10, followed by further
    properties of the methods. *)

From stdpp Require Import gmap strings list fin_maps.
From Stdlib Require Import ZArith Lia.

Abbreviation addr := nat (only parsing).

(** ** Data model *)

(** [interface Entry { newer?: Entry; older?: Entry; key: string; value: any }],
    and every other object that a lookup in the index can return: a function
    of [Object.prototype] has no [key] and no [value] until one is written. *)
Record Entry (V : Type) := mkEntry {
  newer : option addr;
  older : option addr;
  key : option string;
  value : option V
}.
Arguments mkEntry {V} _ _ _ _.
Arguments newer {V} _.
Arguments older {V} _.
Arguments key {V} _.
Arguments value {V} _.

(** The fields of [class LRUCache], together with the object store that
    holds the objects they reference.  [keymap] holds the properties of the
    index object; its binding of ["__proto__"], a name under which an object
    never has a property of its own, stands for the entry that has been made
    the prototype of the index, if any. *)
Record LRUCache (V : Type) := mkCache {
  limit : Z;
  size : Z;
  keymap : gmap string addr;
  head : option addr;
  tail : option addr;
  store : list (Entry V)
}.
Arguments mkCache {V} _ _ _ _ _ _.
Arguments limit {V} _.
Arguments size {V} _.
Arguments keymap {V} _.
Arguments head {V} _.
Arguments tail {V} _.
Arguments store {V} _.

(** Outcome of evaluating [new LRUCache(limit)]: the constructed object, or
    an exception. *)
Inductive Completion (A : Type) :=
  | Normal (a : A)
  | Throw (msg : string).
Arguments Normal {A} _.
Arguments Throw {A} _.

(** What a read [this.keymap[key]] yields: nothing, an object of the store,
    or a value that is not one. *)
Inductive Lookup :=
  | Undefined
  | Found (entry : addr)
  | Foreign.

(** What [get] returns: nothing, the entry itself, or its value. *)
Inductive GetResult (V : Type) :=
  | GetUndefined
  | GetEntry (e : addr)
  | GetValue (v : V).
Arguments GetUndefined {V}.
Arguments GetEntry {V} _.
Arguments GetValue {V} _.

(** The second argument of [forEach]. *)
Inductive ForEachContext :=
  | CtxTrue
  | CtxObject
  | CtxOther.

(** ** The prototype of the index *)

(** The properties of [Object.prototype] whose value is a function.  Its
    one other property is the accessor [__proto__]. *)
Definition object_prototype_functions : list string :=
  ["constructor"; "__defineGetter__"; "__defineSetter__"; "hasOwnProperty";
   "__lookupGetter__"; "__lookupSetter__"; "isPrototypeOf";
   "propertyIsEnumerable"; "toString"; "valueOf"; "toLocaleString"].

(** The function that [Object.prototype] holds under [k]: these functions
    are the first objects of the store, in the order of the list. *)
Definition inherited (k : string) : option addr :=
  fst <$> list_find (λ name, name = k) object_prototype_functions.

(** A key that is not the name of a property of [Object.prototype]. *)
Definition ordinary (k : string) : Prop :=
  k ≠ "__proto__" ∧ inherited k = None.

Section Operations.
Context {V : Type}.

Implicit Types (st : list (Entry V)) (c : LRUCache V) (a e : addr).

(** The store before anything is allocated: the functions of
    [Object.prototype], which have none of the four properties. *)
Definition realm : list (Entry V) :=
  (λ _, mkEntry None None None None) <$> object_prototype_functions.

(** *** Field reads and writes on the store *)

Definition newer_of st a : option addr := st !! a ≫= newer.
Definition older_of st a : option addr := st !! a ≫= older.
Definition key_of st a : option string := st !! a ≫= key.
Definition value_of st a : option V := st !! a ≫= value.

Definition set_newer a (n : option addr) st : list (Entry V) :=
  alter (λ x, mkEntry n (older x) (key x) (value x)) a st.
Definition set_older a (o : option addr) st : list (Entry V) :=
  alter (λ x, mkEntry (newer x) o (key x) (value x)) a st.
Definition set_value a (v : V) st : list (Entry V) :=
  alter (λ x, mkEntry (newer x) (older x) (key x) (Some v)) a st.

(** *** Reads and deletions on the index *)

(** [this.keymap[k]]: a property of the index itself; otherwise, the
    prototype for ["__proto__"]; otherwise a property of the entry that has
    been made the prototype, if there is one; otherwise a function of
    [Object.prototype]. *)
Definition keymap_get (k : string) c : Lookup :=
  match keymap c !! k with
  | Some entry => Found entry
  | None =>
    if decide (k = "__proto__") then Foreign
    else
      let object_prototype :=
        match inherited k with
        | Some f => Found f
        | None => Undefined
        end in
      match keymap c !! "__proto__" with
      | None => object_prototype
      | Some p =>
        if decide (k = "key") then Foreign
        else if decide (k = "value") then Foreign
        else if decide (k = "newer") then
          from_option Found Undefined (newer_of (store c) p)
        else if decide (k = "older") then
          from_option Found Undefined (older_of (store c) p)
        else object_prototype
      end
  end.

(** [delete this.keymap[entry.key]]: the key is read as a property name,
    ["undefined"] when the object has no key; the prototype is not a
    property, and stays. *)
Definition key_name (k : option string) : string := default "undefined" k.

Definition keymap_delete (k : option string) (km : gmap string addr)
  : gmap string addr :=
  if decide (key_name k = "__proto__") then km else delete (key_name k) km.

(** ** Operations *)

(** [constructor(limit)]: no validation, no [throw]. *)
Definition construct (lim : Z) : LRUCache V :=
  mkCache lim 0 ∅ None None realm.

Definition new_LRUCache (lim : Z) : Completion (LRUCache V) :=
  Normal (construct lim).

(** [shift()], lines 89-106. *)
Definition shift c : option addr * LRUCache V :=
  match head c with
  | None => (None, c)
  | Some entry =>
    let '(hd, st1) :=
      match newer_of (store c) entry with
      | Some n => (Some n, set_older n None (store c))
      | None => (None, store c)
      end in
    let st2 := set_newer entry None (set_older entry None st1) in
    let km := keymap_delete (key_of st2 entry) (keymap c) in
    (Some entry, mkCache (limit c) (size c) km hd (tail c) st2)
  end.

(** The state of [put] at line 65: the entry is allocated, indexed and
    linked behind the previous tail. *)
Definition put_linked (k : string) (v : V) c : LRUCache V :=
  let entry := length (store c) in
  let st0 := store c ++ [mkEntry None None (Some k) (Some v)] in
  let km := <[k := entry]> (keymap c) in
  match tail c with
  | Some t =>
    mkCache (limit c) (size c) km (head c) (Some entry)
            (set_older entry (Some t) (set_newer t (Some entry) st0))
  | None =>
    mkCache (limit c) (size c) km (Some entry) (Some entry) st0
  end.

(** [put(key, value)], lines 52-73. *)
Definition put (k : string) (v : V) c : option addr * LRUCache V :=
  let c1 := put_linked k v c in
  if (size c1 =? limit c1)%Z then shift c1
  else (None, mkCache (limit c1) (size c1 + 1) (keymap c1) (head c1) (tail c1) (store c1)).

Definition get_return (returnEntry : bool) st entry : GetResult V :=
  if returnEntry then GetEntry entry
  else match value_of st entry with
       | Some v => GetValue v
       | None => GetUndefined
       end.

(** Lines 116-137 of [get]: the index has yielded [entry]. *)
Definition touch entry (returnEntry : bool) c : GetResult V * LRUCache V :=
  if decide (Some entry = tail c) then (get_return returnEntry (store c) entry, c)
  else
    let '(hd, st1) :=
      match newer_of (store c) entry with
      | Some n =>
        (if decide (Some entry = head c) then Some n else head c,
         set_older n (older_of (store c) entry) (store c))
      | None => (head c, store c)
      end in
    let st2 :=
      match older_of st1 entry with
      | Some o => set_newer o (newer_of st1 entry) st1
      | None => st1
      end in
    let st3 := set_newer entry None st2 in
    let st4 := set_older entry (tail c) st3 in
    let st5 :=
      match tail c with
      | Some t => set_newer t (Some entry) st4
      | None => st4
      end in
    (get_return returnEntry st5 entry,
     mkCache (limit c) (size c) (keymap c) hd (Some entry) st5).

(** [get(key, returnEntry)], lines 112-138. *)
Definition get (k : string) (returnEntry : bool) c
  : option (GetResult V * LRUCache V) :=
  match keymap_get k c with
  | Undefined => Some (GetUndefined, c)
  | Found entry => Some (touch entry returnEntry c)
  | Foreign => None
  end.

(** [find(key)], lines 149-151. *)
Definition find (k : string) c : Lookup := keymap_get k c.

(** [set(key, value)], lines 157-168.  The result is [oldvalue]. *)
Definition set (k : string) (v : V) c : option (option V * LRUCache V) :=
  match get k true c with
  | None => None
  | Some (GetEntry entry, c1) =>
    Some (value_of (store c1) entry,
          mkCache (limit c1) (size c1) (keymap c1) (head c1) (tail c1)
                  (set_value entry v (store c1)))
  | Some (_, c1) =>
    Some match put k v c1 with
         | (Some old, c2) => (value_of (store c2) old, c2)
         | (None, c2) => (None, c2)
         end
  end.

(** Lines 177-197 of [remove]: the index has yielded [entry]. *)
Definition unlink entry c : option V * LRUCache V :=
  let km := keymap_delete (key_of (store c) entry) (keymap c) in
  let '(hd, tl, st1) :=
    match newer_of (store c) entry, older_of (store c) entry with
    | Some n, Some o =>
      (head c, tail c, set_older n (Some o) (set_newer o (Some n) (store c)))
    | Some n, None => (Some n, tail c, set_older n None (store c))
    | None, Some o => (head c, Some o, set_newer o None (store c))
    | None, None => (None, None, store c)
    end in
  (value_of st1 entry, mkCache (limit c) (size c - 1) km hd tl st1).

(** [remove(key)], lines 174-198. *)
Definition remove (k : string) c : option (option V * LRUCache V) :=
  match keymap_get k c with
  | Undefined => Some (None, c)
  | Found entry => Some (unlink entry c)
  | Foreign => None
  end.

(** [removeAll()], lines 201-205. *)
Definition removeAll c : LRUCache V :=
  mkCache (limit c) 0 ∅ None None (store c).

(** [keys()], lines 211-213: the names of the properties of the index. *)
Definition keys c : list string :=
  elements (dom (delete "__proto__" (keymap c))).

(** The [while (entry) { ...; entry = entry.newer }] loops.  Every step
    visits an allocated entry; a walk that has made more steps than there are
    entries in the store has entered a cycle and never ends, which is the
    result [None] (see [walk_fuel_enough]). *)
Fixpoint walk (next : Entry V → option addr) st (fuel : nat) (cur : option addr)
  : option (list addr) :=
  match cur with
  | None => Some []
  | Some a =>
    match fuel with
    | O => None
    | S n =>
      match st !! a with
      | None => None
      | Some x => cons a <$> walk next st n (next x)
      end
    end
  end.

(** Entries as visited from [head] along [newer], and from [tail] along
    [older]. *)
Definition entries c : option (list addr) :=
  walk newer (store c) (length (store c)) (head c).
Definition entries_desc c : option (list addr) :=
  walk older (store c) (length (store c)) (tail c).

Definition key_value st a : option (option string * option V) :=
  x ← st !! a; Some (key x, value x).

(** [forEach(fun, context, desc)], lines 223-240: the calls
    [fun(key, value, this)] it makes, in order. *)
Definition forEach (context : ForEachContext) (desc : bool) c
  : option (list (option string * option V)) :=
  let desc := match context with CtxTrue => true | _ => desc end in
  l ← (if desc then entries_desc c else entries c);
  mapM (key_value (store c)) l.

(** [String(entry.key) + ':' + entry.value] *)
Definition render_entry (show : V → string) (kv : option string * option V)
  : string :=
  default "undefined" kv.1 +:+ ":" +:+ from_option show "undefined" kv.2.

Fixpoint render (show : V → string) (kvs : list (option string * option V))
  : string :=
  match kvs with
  | [] => ""
  | kv :: rest =>
    let s := render_entry show kv in
    match rest with
    | [] => s
    | _ :: _ => s +:+ " < " +:+ render show rest
    end
  end.

(** [toString()], lines 243-252; [show] is the string coercion of values. *)
Definition toString (show : V → string) c : option string :=
  l ← entries c;
  kvs ← mapM (key_value (store c)) l;
  Some (render show kvs).

(** A sequence of [put] calls: the cache after each call. *)
Fixpoint put_trace (kvs : list (string * V)) c : list (LRUCache V) :=
  match kvs with
  | [] => []
  | (k, v) :: rest => let c' := (put k v c).2 in c' :: put_trace rest c'
  end.

End Operations.

(** ** Representation predicates *)

Section Invariants.
Context {V : Type}.

Implicit Types (st : list (Entry V)) (c : LRUCache V) (a e : addr).
Implicit Types (l : list addr) (p n : option addr).

(** [seg st p l n]: the entries [l] are allocated and doubly linked in this
    order; the first one has [older = p], the last one has [newer = n]. *)
Fixpoint seg st p l n : Prop :=
  match l with
  | [] => True
  | a :: l' =>
    a < length st ∧ older_of st a = p ∧
    newer_of st a = from_option Some n (hd_error l') ∧
    seg st (Some a) l' n
  end.

(** [chain st l h t]: [l] is an acyclic doubly linked chain that starts at
    [h], ends at [t], and has no link leaving it at either end. *)
Definition chain st l (h t : option addr) : Prop :=
  NoDup l ∧ h = hd_error l ∧ t = last l ∧ seg st None l None.

(** [indexed c l]: the index only maps a key to an entry of [l] that holds
    this key. *)
Definition indexed c l : Prop :=
  ∀ k a, keymap c !! k = Some a → a ∈ l ∧ key_of (store c) a = Some k.

(** [linked c l]: the chain of [c] from [head] to [tail] is [l], the [size]
    counter is its length, and the index points into it.  [Inv] is the
    invariant of the cache: there is such a chain. *)
Definition linked c l : Prop :=
  chain (store c) l (head c) (tail c) ∧
  size c = Z.of_nat (length l) ∧
  indexed c l.

Definition Inv c : Prop := ∃ l, linked c l.

(** [plain_index c]: no entry has been made the prototype of the index, so
    what the index does not hold itself is looked up in [Object.prototype]. *)
Definition plain_index c : Prop := keymap c !! "__proto__" = None.

(** [ref_ok st x]: the optional reference [x] designates an allocated object. *)
Definition ref_ok st (x : option addr) : Prop :=
  ∀ a, x = Some a → a < length st.

Definition links_closed st : Prop :=
  ∀ a, ref_ok st (newer_of st a) ∧ ref_ok st (older_of st a).

(** References designate allocated objects, an indexed entry holds the key
    it is indexed under and a value, and the functions of [Object.prototype]
    are allocated.  This holds in every state the methods can produce (see
    [wf_construct], [wf_put], [wf_shift], ...). *)
Definition wf c : Prop :=
  ref_ok (store c) (head c) ∧
  ref_ok (store c) (tail c) ∧
  (∀ k a, keymap c !! k = Some a →
          key_of (store c) a = Some k ∧ is_Some (value_of (store c) a)) ∧
  links_closed (store c) ∧
  length object_prototype_functions ≤ length (store c).

Definition with_size (z : Z) c : LRUCache V :=
  mkCache (limit c) z (keymap c) (head c) (tail c) (store c).

(** *** What holds in every state *)

(** The states of a cache that is only used through its methods, as far as
    the embedding follows them: a call of [get], [set] or [remove] whose
    lookup is [Foreign] has no result here, and leads nowhere.  [find],
    [keys], [forEach] and [toString] do not change the state. *)
Inductive reachable : LRUCache V → Prop :=
  | reach_construct lim : reachable (construct lim)
  | reach_put k v c : reachable c → reachable (put k v c).2
  | reach_shift c : reachable c → reachable (shift c).2
  | reach_get k r c res c' :
      reachable c → get k r c = Some (res, c') → reachable c'
  | reach_set k v c old c' :
      reachable c → set k v c = Some (old, c') → reachable c'
  | reach_remove k c old c' :
      reachable c → remove k c = Some (old, c') → reachable c'
  | reach_removeAll c : reachable c → reachable (removeAll c).

(** [tidy c l]: [linked c l], and every entry of the chain is indexed (under
    the key it holds, by [indexed]).  An entry of the chain loses its place in
    the index when [put] is called on a key that is already indexed; [set]
    never does that. *)
Definition tidy c l : Prop :=
  linked c l ∧ ∀ a, a ∈ l → ∃ k, keymap c !! k = Some a.

Definition Tidy c : Prop := ∃ l, tidy c l.

End Invariants.

(** ** Example caches *)

(** [new LRUCache(5)] after [put("a", 1)], and after [put("b", 2)] as well.
    The two entries are the objects 11 and 12 of the store, behind the
    eleven functions of [Object.prototype]. *)
Definition cache_a : LRUCache Z := (put "a" 1%Z (construct 5)).2.
Definition cache_ab : LRUCache Z := (put "b" 2%Z cache_a).2.

(** [new LRUCache(0)]. *)
Definition cache_zero : LRUCache Z := construct 0.

(** [new LRUCache(1)] after [put("a", 1)]: a full cache. *)
Definition cache_full : LRUCache Z := (put "a" 1%Z (construct 1)).2.

(** [new LRUCache(2)] after [put("a", 1); put("b", 2)]: full, two entries. *)
Definition cache_two : LRUCache Z :=
  (put "b" 2%Z (put "a" 1%Z (construct 2)).2).2.

(** * Verification *)

(** ** The store: reading a field after a write *)

Section StoreLemmas.
Context {V : Type}.

Implicit Types (st : list (Entry V)) (c : LRUCache V) (a b e : addr).
Implicit Types (l : list addr) (p n o : option addr).

Lemma length_set_newer a n st : length (set_newer a n st) = length st.
Proof. apply length_alter. Qed.

Lemma length_set_older a o st : length (set_older a o st) = length st.
Proof. apply length_alter. Qed.

Lemma length_set_value a (v : V) st : length (set_value a v st) = length st.
Proof. apply length_alter. Qed.

Lemma newer_set_newer st a b n :
  newer_of (set_newer a n st) b =
  if decide (a = b) then (if decide (a < length st) then n else None)
  else newer_of st b.
Proof.
  unfold newer_of, set_newer. rewrite list_lookup_alter.
  destruct (decide (a = b)) as [->|]; [|done].
  destruct (st !! b) eqn:E; simpl.
  - apply lookup_lt_Some in E. by rewrite decide_True.
  - apply lookup_ge_None in E. rewrite decide_False; [done|lia].
Qed.

Lemma older_set_older st a b o :
  older_of (set_older a o st) b =
  if decide (a = b) then (if decide (a < length st) then o else None)
  else older_of st b.
Proof.
  unfold older_of, set_older. rewrite list_lookup_alter.
  destruct (decide (a = b)) as [->|]; [|done].
  destruct (st !! b) eqn:E; simpl.
  - apply lookup_lt_Some in E. by rewrite decide_True.
  - apply lookup_ge_None in E. rewrite decide_False; [done|lia].
Qed.

Lemma newer_set_older st a b o : newer_of (set_older a o st) b = newer_of st b.
Proof.
  unfold newer_of, set_older. rewrite list_lookup_alter.
  case_decide; [subst|done]. by destruct (st !! b).
Qed.

Lemma older_set_newer st a b n : older_of (set_newer a n st) b = older_of st b.
Proof.
  unfold older_of, set_newer. rewrite list_lookup_alter.
  case_decide; [subst|done]. by destruct (st !! b).
Qed.

Lemma newer_set_value st a b (v : V) : newer_of (set_value a v st) b = newer_of st b.
Proof.
  unfold newer_of, set_value. rewrite list_lookup_alter.
  case_decide; [subst|done]. by destruct (st !! b).
Qed.

Lemma older_set_value st a b (v : V) : older_of (set_value a v st) b = older_of st b.
Proof.
  unfold older_of, set_value. rewrite list_lookup_alter.
  case_decide; [subst|done]. by destruct (st !! b).
Qed.

Lemma key_set_newer st a b n : key_of (set_newer a n st) b = key_of st b.
Proof.
  unfold key_of, set_newer. rewrite list_lookup_alter.
  case_decide; [subst|done]. by destruct (st !! b).
Qed.

Lemma key_set_older st a b o : key_of (set_older a o st) b = key_of st b.
Proof.
  unfold key_of, set_older. rewrite list_lookup_alter.
  case_decide; [subst|done]. by destruct (st !! b).
Qed.

Lemma key_set_value st a b (v : V) : key_of (set_value a v st) b = key_of st b.
Proof.
  unfold key_of, set_value. rewrite list_lookup_alter.
  case_decide; [subst|done]. by destruct (st !! b).
Qed.

Lemma value_set_newer st a b n : value_of (set_newer a n st) b = value_of st b.
Proof.
  unfold value_of, set_newer. rewrite list_lookup_alter.
  case_decide; [subst|done]. by destruct (st !! b).
Qed.

Lemma value_set_older st a b o : value_of (set_older a o st) b = value_of st b.
Proof.
  unfold value_of, set_older. rewrite list_lookup_alter.
  case_decide; [subst|done]. by destruct (st !! b).
Qed.

Lemma value_set_value st a b (v : V) :
  value_of (set_value a v st) b =
  if decide (a = b) then (if decide (a < length st) then Some v else None)
  else value_of st b.
Proof.
  unfold value_of, set_value. rewrite list_lookup_alter.
  destruct (decide (a = b)) as [->|]; [|done].
  destruct (st !! b) eqn:E; simpl.
  - apply lookup_lt_Some in E. by rewrite decide_True.
  - apply lookup_ge_None in E. rewrite decide_False; [done|lia].
Qed.

(** Allocation leaves the fields of the allocated entries alone. *)
Lemma newer_alloc st (x : Entry V) a :
  newer_of (st ++ [x]) a =
  if decide (a = length st) then newer x else newer_of st a.
Proof.
  unfold newer_of. case_decide as E.
  - subst. by rewrite list_lookup_middle.
  - destruct (decide (a < length st)).
    + by rewrite lookup_app_l.
    + rewrite !lookup_ge_None_2; [done|lia|rewrite length_app; simpl; lia].
Qed.

Lemma older_alloc st (x : Entry V) a :
  older_of (st ++ [x]) a =
  if decide (a = length st) then older x else older_of st a.
Proof.
  unfold older_of. case_decide as E.
  - subst. by rewrite list_lookup_middle.
  - destruct (decide (a < length st)).
    + by rewrite lookup_app_l.
    + rewrite !lookup_ge_None_2; [done|lia|rewrite length_app; simpl; lia].
Qed.

Lemma key_alloc st (x : Entry V) a :
  key_of (st ++ [x]) a =
  if decide (a = length st) then key x else key_of st a.
Proof.
  unfold key_of. case_decide as E.
  - subst. by rewrite list_lookup_middle.
  - destruct (decide (a < length st)).
    + by rewrite lookup_app_l.
    + rewrite !lookup_ge_None_2; [done|lia|rewrite length_app; simpl; lia].
Qed.

Lemma value_alloc st (x : Entry V) a :
  value_of (st ++ [x]) a =
  if decide (a = length st) then value x else value_of st a.
Proof.
  unfold value_of. case_decide as E.
  - subst. by rewrite list_lookup_middle.
  - destruct (decide (a < length st)).
    + by rewrite lookup_app_l.
    + rewrite !lookup_ge_None_2; [done|lia|rewrite length_app; simpl; lia].
Qed.

Lemma key_of_lt st a k : key_of st a = Some k → a < length st.
Proof.
  unfold key_of. destruct (st !! a) eqn:E; [|done].
  intros _. by apply lookup_lt_Some in E.
Qed.

Lemma value_of_lt st a (v : V) : value_of st a = Some v → a < length st.
Proof.
  unfold value_of. destruct (st !! a) eqn:E; [|done].
  intros _. by apply lookup_lt_Some in E.
Qed.

Lemma newer_of_lt st a b : newer_of st a = Some b → a < length st.
Proof.
  unfold newer_of. destruct (st !! a) eqn:E; [|done].
  intros _. by apply lookup_lt_Some in E.
Qed.

Lemma older_of_lt st a b : older_of st a = Some b → a < length st.
Proof.
  unfold older_of. destruct (st !! a) eqn:E; [|done].
  intros _. by apply lookup_lt_Some in E.
Qed.

End StoreLemmas.

Create Rewrite HintDb store.
#[local] Hint Rewrite @length_set_newer @length_set_older @length_set_value
  @newer_set_newer @older_set_older @newer_set_older @older_set_newer
  @newer_set_value @older_set_value @key_set_newer @key_set_older
  @key_set_value @value_set_newer @value_set_older : store.

(** ** Doubly linked segments *)

Section Segments.
Context {V : Type}.

Implicit Types (st : list (Entry V)) (c : LRUCache V) (a b e : addr).
Implicit Types (l : list addr) (p n o : option addr).

Lemma seg_lt st p l n a : seg st p l n → a ∈ l → a < length st.
Proof.
  revert p. induction l as [|x l IH]; intros p Hs Ha.
  - by apply elem_of_nil in Ha.
  - destruct Hs as (Hx & _ & _ & Hs).
    apply elem_of_cons in Ha as [->|Ha]; [done|]. by eapply IH.
Qed.

(** Frame: a segment only depends on the links of its own entries. *)
Lemma seg_ext st st' p l n :
  length st ≤ length st' →
  (∀ a, a ∈ l → older_of st' a = older_of st a ∧ newer_of st' a = newer_of st a) →
  seg st p l n → seg st' p l n.
Proof.
  intros Hlen. revert p. induction l as [|x l IH]; intros p Hext Hs; [done|].
  destruct Hs as (Hx & Ho & Hn & Hs).
  destruct (Hext x) as [Eo En]; [left|].
  simpl. rewrite Eo, En. repeat split; [lia|done|done|].
  apply IH; [|done]. intros a Ha. apply Hext. by right.
Qed.

Lemma seg_app st p l1 l2 n :
  seg st p (l1 ++ l2) n ↔
  seg st p l1 (from_option Some n (hd_error l2)) ∧
  seg st (from_option Some p (last l1)) l2 n.
Proof.
  revert p. induction l1 as [|x l1 IH]; intros p; simpl.
  - tauto.
  - rewrite IH. rewrite last_cons.
    assert (from_option Some n (hd_error (l1 ++ l2)) =
            from_option Some (from_option Some n (hd_error l2)) (hd_error l1)) as ->.
    { by destruct l1. }
    assert (from_option Some (Some x) (last l1) =
            from_option Some p (match last l1 with Some y => Some y | None => Some x end)) as ->.
    { by destruct (last l1). }
    tauto.
Qed.

Lemma seg_snoc st p l a n :
  seg st p (l ++ [a]) n ↔
  seg st p l (Some a) ∧ a < length st ∧
  older_of st a = from_option Some p (last l) ∧ newer_of st a = n.
Proof. rewrite seg_app. simpl. tauto. Qed.

(** Rewriting the outward links of a segment. *)
Lemma seg_set_older_head st p l a n o :
  a ∉ l → seg st p (a :: l) n → seg (set_older a o st) o (a :: l) n.
Proof.
  intros Ha (Hlt & Ho & Hn & Hs). simpl.
  autorewrite with store. rewrite !decide_True by done.
  repeat split; [done..|].
  eapply seg_ext; [| |exact Hs].
  - by autorewrite with store.
  - intros b Hb. autorewrite with store.
    rewrite decide_False; [done|]. intros ->. done.
Qed.

Lemma seg_set_newer_last st p l a n x :
  a ∉ l → seg st p (l ++ [a]) n → seg (set_newer a x st) p (l ++ [a]) x.
Proof.
  intros Ha. rewrite !seg_snoc. intros (Hs & Hlt & Ho & Hn).
  autorewrite with store. rewrite !decide_True by done.
  repeat split; [|done..].
  eapply seg_ext; [| |exact Hs].
  - by autorewrite with store.
  - intros b Hb. autorewrite with store.
    rewrite decide_False; [done|]. intros ->. done.
Qed.

Lemma seg_set_older_notin st p l a n o :
  a ∉ l → seg st p l n → seg (set_older a o st) p l n.
Proof.
  intros Ha. apply seg_ext.
  - by autorewrite with store.
  - intros b Hb. autorewrite with store.
    rewrite decide_False; [done|]. intros ->. done.
Qed.

Lemma seg_set_newer_notin st p l a n x :
  a ∉ l → seg st p l n → seg (set_newer a x st) p l n.
Proof.
  intros Ha. apply seg_ext.
  - by autorewrite with store.
  - intros b Hb. autorewrite with store.
    rewrite decide_False; [done|]. intros ->. done.
Qed.

Lemma seg_set_value st p l a n (v : V) :
  seg st p l n → seg (set_value a v st) p l n.
Proof.
  apply seg_ext.
  - by autorewrite with store.
  - intros b Hb. by autorewrite with store.
Qed.

Lemma seg_alloc st p l n (x : Entry V) : seg st p l n → seg (st ++ [x]) p l n.
Proof.
  intros Hs. eapply seg_ext; [| |exact Hs].
  - rewrite length_app. lia.
  - intros a Ha. rewrite newer_alloc, older_alloc.
    pose proof (seg_lt _ _ _ _ _ Hs Ha).
    rewrite !decide_False by lia. done.
Qed.

Lemma walk_end (next : Entry V → option addr) st fuel :
  walk next st fuel None = Some [].
Proof. by destruct fuel. Qed.

(** A segment that ends the chain is what the forward loop visits. *)
Lemma walk_newer_seg st p l fuel :
  seg st p l None → length l ≤ fuel →
  walk newer st fuel (hd_error l) = Some l.
Proof.
  revert p fuel. induction l as [|a l IH]; intros p fuel Hs Hf;
    [apply walk_end|].
  destruct Hs as (Hlt & Ho & Hn & Hs). simpl in Hf.
  destruct fuel as [|fuel]; [lia|]. simpl.
  unfold newer_of in Hn. apply lookup_lt_is_Some_2 in Hlt as [x Hx].
  rewrite Hx in Hn |- *. simpl in Hn. rewrite Hn.
  assert (from_option Some None (hd_error l) = hd_error l) as -> by by destruct l.
  erewrite IH; [done|exact Hs|lia].
Qed.

(** ... and, read from its last entry, what the backward loop visits. *)
Lemma walk_older_seg st l n fuel :
  seg st None l n → length l ≤ fuel →
  walk older st fuel (last l) = Some (reverse l).
Proof.
  revert n fuel. induction l as [|a l IH] using rev_ind; intros n fuel Hs Hf;
    [apply walk_end|].
  apply seg_snoc in Hs as (Hs & Hlt & Ho & Hn).
  rewrite length_app in Hf. simpl in Hf.
  destruct fuel as [|fuel]; [lia|]. rewrite last_snoc, reverse_snoc. simpl.
  unfold older_of in Ho. apply lookup_lt_is_Some_2 in Hlt as [x Hx].
  rewrite Hx in Ho |- *. simpl in Ho. rewrite Ho.
  assert (from_option Some None (last l) = last l) as -> by by destruct (last l).
  erewrite IH; [done|exact Hs|lia].
Qed.

Lemma NoDup_lt_length l m : NoDup l → (∀ a, a ∈ l → a < m) → length l ≤ m.
Proof.
  intros Hnd Hlt.
  assert (l ⊆+ seq 0 m) as Hsub.
  { apply NoDup_submseteq; [done|]. intros a Ha. apply elem_of_seq.
    specialize (Hlt a Ha). lia. }
  apply submseteq_length in Hsub. by rewrite length_seq in Hsub.
Qed.

Lemma chain_length st l h t : chain st l h t → length l ≤ length st.
Proof.
  intros (Hnd & _ & _ & Hs). apply NoDup_lt_length; [done|].
  intros a Ha. by eapply seg_lt.
Qed.

Lemma linked_entries c l : linked c l → entries c = Some l.
Proof.
  intros (Hc & _ & _). pose proof (chain_length _ _ _ _ Hc) as Hlen.
  destruct Hc as (_ & Hh & _ & Hs). unfold entries. rewrite Hh.
  by eapply walk_newer_seg.
Qed.

Lemma linked_entries_desc c l : linked c l → entries_desc c = Some (reverse l).
Proof.
  intros (Hc & _ & _). pose proof (chain_length _ _ _ _ Hc) as Hlen.
  destruct Hc as (_ & _ & Ht & Hs). unfold entries_desc. rewrite Ht.
  by eapply walk_older_seg.
Qed.

Lemma linked_unique c l l' : linked c l → linked c l' → l = l'.
Proof.
  intros H H'. apply linked_entries in H, H'. congruence.
Qed.

End Segments.

(** ** The loops and their fuel *)

Section Loops.
Context {V : Type}.

Implicit Types (st : list (Entry V)) (a b : addr) (l : list addr).
Implicit Types (next : Entry V → option addr) (cur : option addr).

Lemma walk_length next st fuel cur l :
  walk next st fuel cur = Some l →
  ∀ fuel', length l ≤ fuel' → walk next st fuel' cur = Some l.
Proof.
  revert cur l. induction fuel as [|fuel IH]; intros cur l Hw fuel' Hf.
  - destruct cur; [done|]. injection Hw as <-. apply walk_end.
  - destruct cur as [a|]; [|injection Hw as <-; apply walk_end].
    simpl in Hw. destruct (st !! a) as [x|] eqn:Ex; [|done].
    destruct (walk next st fuel (next x)) as [l'|] eqn:Ew; [|done].
    injection Hw as <-. simpl in Hf. destruct fuel' as [|fuel']; [lia|].
    simpl. rewrite Ex. erewrite IH; [done|exact Ew|lia].
Qed.

Lemma walk_deterministic next st fuel1 fuel2 cur l1 l2 :
  walk next st fuel1 cur = Some l1 → walk next st fuel2 cur = Some l2 → l1 = l2.
Proof.
  intros H1 H2.
  pose proof (walk_length _ _ _ _ _ H1 (length l1 `max` length l2)) as H1'.
  pose proof (walk_length _ _ _ _ _ H2 (length l1 `max` length l2)) as H2'.
  rewrite H1' in H2' by lia. injection H2' as ->; [done|lia].
Qed.

Lemma walk_suffix next st fuel cur l1 a l2 :
  walk next st fuel cur = Some (l1 ++ a :: l2) →
  ∃ fuel', walk next st fuel' (Some a) = Some (a :: l2).
Proof.
  revert fuel cur. induction l1 as [|b l1 IH]; intros fuel cur Hw.
  - simpl in Hw. destruct cur as [a'|]; [|rewrite walk_end in Hw; discriminate Hw].
    destruct fuel as [|fuel]; [discriminate Hw|]. exists (S fuel).
    simpl in Hw. destruct (st !! a') as [x|] eqn:Ex; [|done].
    destruct (walk next st fuel (next x)) eqn:Ew; [|done].
    injection Hw as -> ->. simpl. by rewrite Ex, Ew.
  - simpl in Hw. destruct cur as [a'|]; [|rewrite walk_end in Hw; discriminate Hw].
    destruct fuel as [|fuel]; [discriminate Hw|].
    simpl in Hw. destruct (st !! a') as [x|]; [|done].
    destruct (walk next st fuel (next x)) as [l'|] eqn:Ew; [|done].
    injection Hw as -> ->. by eapply IH.
Qed.

Lemma walk_lt next st fuel cur l a :
  walk next st fuel cur = Some l → a ∈ l → a < length st.
Proof.
  revert cur l. induction fuel as [|fuel IH]; intros cur l Hw Ha.
  - destruct cur; [done|]. injection Hw as <-. by apply elem_of_nil in Ha.
  - destruct cur as [a'|]; [|injection Hw as <-; by apply elem_of_nil in Ha].
    simpl in Hw. destruct (st !! a') as [x|] eqn:Ex; [|done].
    destruct (walk next st fuel (next x)) as [l'|] eqn:Ew; [|done].
    injection Hw as <-. apply elem_of_cons in Ha as [->|Ha].
    + by apply lookup_lt_Some in Ex.
    + by eapply IH.
Qed.

(** A loop that ends never visits an entry twice ... *)
Lemma walk_NoDup next st fuel cur l :
  walk next st fuel cur = Some l → NoDup l.
Proof.
  revert fuel cur. induction l as [|a l IH]; intros fuel cur Hw; [constructor|].
  destruct cur as [a'|]; [|rewrite walk_end in Hw; discriminate Hw].
  destruct fuel as [|fuel]; [discriminate Hw|]. pose proof Hw as Hw0.
  simpl in Hw. destruct (st !! a') as [x|]; [|done].
  destruct (walk next st fuel (next x)) as [l'|] eqn:Ew; [|done].
  injection Hw as -> ->. constructor; [|by eapply IH].
  intros (l1 & l2 & ->)%list_elem_of_split.
  destruct (walk_suffix _ _ _ _ _ _ _ Ew) as [fuel' Hw'].
  pose proof (walk_deterministic _ _ _ _ _ _ _ Hw0 Hw') as Heq.
  apply (f_equal length) in Heq. revert Heq. simpl.
  rewrite length_app. simpl. lia.
Qed.

(** ... so the number of entries in the store is fuel enough: with it,
    [walk] fails only where the loop of the source does not end (or follows a
    reference to nothing, which a reference never is). *)
Lemma walk_fuel_enough next st fuel cur l :
  walk next st fuel cur = Some l → walk next st (length st) cur = Some l.
Proof.
  intros Hw. eapply walk_length; [exact Hw|].
  apply NoDup_lt_length; [by eapply walk_NoDup|].
  intros a Ha. by eapply walk_lt.
Qed.

End Loops.
(** ** Reference validity is preserved by every method *)

Section WellFormed.
Context {V : Type}.

Implicit Types (st : list (Entry V)) (c : LRUCache V) (a b e : addr).
Implicit Types (l : list addr) (p n o x : option addr).

Lemma ref_ok_None st : ref_ok st None.
Proof. by intros a. Qed.

Lemma ref_ok_Some st a : a < length st → ref_ok st (Some a).
Proof. by intros H b [= <-]. Qed.

Lemma ref_ok_length st st' x : length st = length st' → ref_ok st x → ref_ok st' x.
Proof. intros E H a Ha. rewrite <- E. by apply H. Qed.

Lemma ref_ok_set_newer st a n x : ref_ok st x → ref_ok (set_newer a n st) x.
Proof. apply ref_ok_length. by autorewrite with store. Qed.

Lemma ref_ok_set_older st a o x : ref_ok st x → ref_ok (set_older a o st) x.
Proof. apply ref_ok_length. by autorewrite with store. Qed.

Lemma ref_ok_set_value st a (v : V) x : ref_ok st x → ref_ok (set_value a v st) x.
Proof. apply ref_ok_length. by autorewrite with store. Qed.

Lemma ref_ok_alloc st (y : Entry V) x : ref_ok st x → ref_ok (st ++ [y]) x.
Proof. intros H a Ha. apply H in Ha. rewrite length_app. lia. Qed.

Lemma ref_ok_alloc_new st (y : Entry V) : ref_ok (st ++ [y]) (Some (length st)).
Proof. apply ref_ok_Some. rewrite length_app. simpl. lia. Qed.

Lemma ref_ok_newer st a : links_closed st → ref_ok st (newer_of st a).
Proof. intros H. apply H. Qed.

Lemma ref_ok_older st a : links_closed st → ref_ok st (older_of st a).
Proof. intros H. apply H. Qed.

Lemma newer_closed st a b : links_closed st → newer_of st a = Some b → b < length st.
Proof. intros H Hn. by apply (proj1 (H a)). Qed.

Lemma older_closed st a b : links_closed st → older_of st a = Some b → b < length st.
Proof. intros H Ho. by apply (proj2 (H a)). Qed.

Lemma ref_ok_eq st x y : x = y → ref_ok st x → ref_ok st y.
Proof. by intros ->. Qed.

Lemma ref_ok_index c k a : wf c → keymap c !! k = Some a → ref_ok (store c) (Some a).
Proof.
  intros (_ & _ & Hk & _) Hka. apply ref_ok_Some.
  eapply key_of_lt. by apply (Hk k a).
Qed.

Lemma links_closed_set_newer st a n :
  ref_ok st n → links_closed st → links_closed (set_newer a n st).
Proof.
  intros Hn H b. split; autorewrite with store.
  - repeat case_decide; [apply ref_ok_set_newer, Hn|apply ref_ok_None|].
    apply ref_ok_set_newer, H.
  - apply ref_ok_set_newer, H.
Qed.

Lemma links_closed_set_older st a o :
  ref_ok st o → links_closed st → links_closed (set_older a o st).
Proof.
  intros Hn H b. split; autorewrite with store.
  - apply ref_ok_set_older, H.
  - repeat case_decide; [apply ref_ok_set_older, Hn|apply ref_ok_None|].
    apply ref_ok_set_older, H.
Qed.

Lemma links_closed_set_value st a (v : V) :
  links_closed st → links_closed (set_value a v st).
Proof.
  intros H b. split; autorewrite with store; apply ref_ok_set_value, H.
Qed.

Lemma links_closed_alloc st k (v : option V) :
  links_closed st → links_closed (st ++ [mkEntry None None k v]).
Proof.
  intros H b. split; rewrite ?newer_alloc, ?older_alloc;
    (case_decide; [apply ref_ok_None|apply ref_ok_alloc, H]).
Qed.

End WellFormed.

(** Projections of a cache given by its fields. *)
Ltac fields := cbn [store head tail size keymap limit fst snd].

(** Goals [ref_ok st x] and [links_closed st] over a store obtained by field
    writes and allocation. *)
Ltac refs :=
  lazymatch goal with
  | |- links_closed (set_newer _ _ _) => apply links_closed_set_newer; refs
  | |- links_closed (set_older _ _ _) => apply links_closed_set_older; refs
  | |- links_closed (set_value _ _ _) => apply links_closed_set_value; refs
  | |- links_closed (_ ++ [mkEntry None None _ _]) => apply links_closed_alloc; refs
  | |- ref_ok _ None => apply ref_ok_None
  | |- ref_ok ?st (newer_of ?st _) => apply ref_ok_newer; refs
  | |- ref_ok ?st (older_of ?st _) => apply ref_ok_older; refs
  | |- ref_ok (?st ++ [_]) (Some (length ?st)) => apply ref_ok_alloc_new
  | |- ref_ok ?st (Some ?b) =>
    first
      [ assumption
      | match goal with
        | H : newer_of st _ = Some b |- _ =>
          apply (ref_ok_eq _ _ _ H); apply ref_ok_newer; refs
        | H : older_of st _ = Some b |- _ =>
          apply (ref_ok_eq _ _ _ H); apply ref_ok_older; refs
        | H : keymap _ !! _ = Some b |- _ =>
          by eapply ref_ok_index
        end
      | lazymatch st with
        | set_newer _ _ _ => apply ref_ok_set_newer; refs
        | set_older _ _ _ => apply ref_ok_set_older; refs
        | set_value _ _ _ => apply ref_ok_set_value; refs
        | _ ++ [_] => apply ref_ok_alloc; refs
        end ]
  | |- ref_ok (set_newer _ _ _) _ => apply ref_ok_set_newer; refs
  | |- ref_ok (set_older _ _ _) _ => apply ref_ok_set_older; refs
  | |- ref_ok (set_value _ _ _) _ => apply ref_ok_set_value; refs
  | |- ref_ok (_ ++ [_]) _ => apply ref_ok_alloc; refs
  | |- ref_ok _ (if _ then _ else _) => case_decide; refs
  | |- _ => first [assumption | done]
  end.

(** The functions of [Object.prototype] stay allocated. *)
Ltac realm :=
  match goal with
  | Hr : _ ≤ length (store _) |- _ ≤ length _ =>
    simpl in Hr |- *; autorewrite with store; rewrite ?length_app; simpl; lia
  end.

(** ** What the index yields *)

Section Lookups.
Context {V : Type}.

Implicit Types (st : list (Entry V)) (c : LRUCache V) (a b e f : addr).
Implicit Types (km : gmap string addr).

Lemma length_realm : length (@realm V) = length object_prototype_functions.
Proof. apply length_fmap. Qed.

Lemma newer_realm a : newer_of (@realm V) a = None.
Proof.
  unfold newer_of, realm. rewrite list_lookup_fmap.
  by destruct (object_prototype_functions !! a).
Qed.

Lemma older_realm a : older_of (@realm V) a = None.
Proof.
  unfold older_of, realm. rewrite list_lookup_fmap.
  by destruct (object_prototype_functions !! a).
Qed.

Lemma inherited_lt k f :
  inherited k = Some f → f < length object_prototype_functions.
Proof.
  unfold inherited. destruct (list_find _ _) as [[i x]|] eqn:E; [|done].
  intros [= <-]. apply list_find_Some in E as (E & _). by apply lookup_lt_Some in E.
Qed.

Lemma ordinary_ne k : ordinary k → k ≠ "__proto__".
Proof. by intros [? _]. Qed.

(** On a key that [Object.prototype] does not know, an index without a
    prototype entry yields what it holds itself. *)
Lemma keymap_get_ordinary k c :
  ordinary k → plain_index c →
  keymap_get k c = from_option Found Undefined (keymap c !! k).
Proof.
  intros [Hp Hi] Hpl. unfold keymap_get. destruct (keymap c !! k); [done|].
  rewrite decide_False by done. by rewrite Hpl, Hi.
Qed.

Lemma keymap_get_own k c e : keymap c !! k = Some e → keymap_get k c = Found e.
Proof. intros H. unfold keymap_get. by rewrite H. Qed.

(** The index yields no dangling reference. *)
Lemma wf_keymap_get k c e : wf c → keymap_get k c = Found e → e < length (store c).
Proof.
  intros (_ & _ & Hk & Hcl & Hr). unfold keymap_get.
  destruct (keymap c !! k) as [a|] eqn:Ek.
  { intros [= <-]. eapply key_of_lt. by apply (Hk k a). }
  case_decide; [done|].
  assert (match inherited k with Some f => Found f | None => Undefined end = Found e →
          e < length (store c)) as Hobj.
  { destruct (inherited k) as [f|] eqn:Ef; [|done]. intros [= <-].
    apply inherited_lt in Ef. lia. }
  destruct (keymap c !! "__proto__") as [p|]; [|done].
  repeat case_decide; try done.
  - destruct (newer_of (store c) p) as [n|] eqn:En; [|done]. intros [= <-].
    by eapply newer_closed.
  - destruct (older_of (store c) p) as [o|] eqn:Eo; [|done]. intros [= <-].
    by eapply older_closed.
Qed.

Lemma keymap_delete_Some k km k' a :
  keymap_delete k km !! k' = Some a → km !! k' = Some a.
Proof.
  unfold keymap_delete. case_decide; [done|]. by intros [_ ?]%lookup_delete_Some.
Qed.

(** [delete] takes away the binding of the key, the prototype apart. *)
Lemma keymap_delete_key k km :
  k ≠ "__proto__" → keymap_delete (Some k) km = delete k km.
Proof. intros H. unfold keymap_delete. simpl. by rewrite decide_False. Qed.

Lemma keymap_delete_proto k km :
  keymap_delete k km !! "__proto__" = km !! "__proto__".
Proof.
  unfold keymap_delete. case_decide as E; [done|]. by rewrite lookup_delete_ne.
Qed.

Lemma keymap_delete_ne k km k' :
  key_name k ≠ k' → keymap_delete k km !! k' = km !! k'.
Proof.
  intros H. unfold keymap_delete. case_decide; [done|]. by rewrite lookup_delete_ne.
Qed.

Lemma find_get k r c :
  get k r c =
  match find k c with
  | Undefined => Some (GetUndefined, c)
  | Found e => Some (touch e r c)
  | Foreign => None
  end.
Proof. done. Qed.

Lemma find_remove k c :
  remove k c =
  match find k c with
  | Undefined => Some (None, c)
  | Found e => Some (unlink e c)
  | Foreign => None
  end.
Proof. done. Qed.

End Lookups.

Section WellFormedOps.
Context {V : Type}.

Implicit Types (st : list (Entry V)) (c : LRUCache V) (a b e : addr).
Implicit Types (l : list addr) (p n o x : option addr).

Lemma wf_construct lim : wf (@construct V lim).
Proof.
  split; [by intros ?|]. split; [by intros ?|]. split; [by intros ? ? ?|].
  split; [|apply Nat.eq_le_incl; symmetry; apply length_realm].
  intros a. simpl. rewrite newer_realm, older_realm. split; apply ref_ok_None.
Qed.

Lemma wf_with_size z c : wf c → wf (with_size z c).
Proof. done. Qed.

Lemma wf_shift c : wf c → wf (shift c).2.
Proof.
  intros Hwf. unfold shift. destruct (head c) as [h|] eqn:Eh; [|done].
  pose proof Hwf as (Hh & Ht & Hk & Hcl & Hr). rewrite Eh in Hh.
  destruct (newer_of (store c) h) as [y|] eqn:En; simpl;
    (split; [|split; [|split; [|split]]]); simpl; try refs.
  all: try realm.
  all: intros k a Hka%keymap_delete_Some; autorewrite with store; by apply Hk.
Qed.

Lemma wf_put_linked k (v : V) c : wf c → wf (put_linked k v c).
Proof.
  intros Hwf. pose proof Hwf as (Hh & Ht & Hk & Hcl & Hr).
  assert (∀ k' a, <[k:=length (store c)]> (keymap c) !! k' = Some a →
            key_of (store c ++ [mkEntry None None (Some k) (Some v)]) a = Some k' ∧
            is_Some (value_of (store c ++ [mkEntry None None (Some k) (Some v)]) a))
    as Hidx.
  { intros k' a. rewrite lookup_insert, key_alloc, value_alloc.
    case_decide as E.
    - intros [= <-]. subst. by rewrite !decide_True.
    - intros Hka. destruct (Hk _ _ Hka) as [Hkey Hval].
      apply key_of_lt in Hkey as Hlt. rewrite !decide_False by lia. done. }
  unfold put_linked. destruct (tail c) as [t|] eqn:Et;
    (split; [|split; [|split; [|split]]]); simpl; try refs.
  all: try realm.
  all: intros k' a Hka; autorewrite with store; by apply Hidx.
Qed.

Lemma wf_put k (v : V) c : wf c → wf (put k v c).2.
Proof.
  intros Hwf. apply (wf_put_linked k v) in Hwf. unfold put.
  case_match; [by apply wf_shift|done].
Qed.

Lemma wf_touch e r c : wf c → e < length (store c) → wf (touch e r c).2.
Proof.
  intros Hwf He%ref_ok_Some. unfold touch.
  case_decide as Etl; [done|].
  pose proof Hwf as (Hh & Ht & Hk & Hcl & Hr).
  destruct (newer_of (store c) e) as [y|] eqn:En;
    (match goal with |- context [older_of ?s e] =>
       destruct (older_of s e) as [z|] eqn:Eo end);
    destruct (tail c) as [t|] eqn:Et; simpl;
    (split; [|split; [|split; [|split]]]); simpl; try refs.
  all: try realm.
  all: intros k' a Hka; autorewrite with store; by apply Hk.
Qed.

Lemma wf_get k r c res c' : wf c → get k r c = Some (res, c') → wf c'.
Proof.
  intros Hwf. unfold get. destruct (keymap_get k c) as [|e|] eqn:Ek; [| |done].
  - by intros [= _ <-].
  - intros [= H]. apply (f_equal snd) in H. simpl in H. subst c'.
    apply wf_touch; [done|]. by eapply wf_keymap_get.
Qed.

End WellFormedOps.

Section WellFormedSetRemove.
Context {V : Type}.

Implicit Types (st : list (Entry V)) (c : LRUCache V) (a b e : addr).
Implicit Types (l : list addr) (p n o x : option addr).

Lemma touch_true_result e c : (touch e true c).1 = GetEntry e.
Proof. unfold touch. case_decide; [done|]. by repeat case_match. Qed.

Lemma touch_keymap e r c : keymap (touch e r c).2 = keymap c.
Proof. unfold touch. case_decide; [done|]. by repeat case_match. Qed.

Lemma touch_size e r c : size (touch e r c).2 = size c.
Proof. unfold touch. case_decide; [done|]. by repeat case_match. Qed.

Lemma touch_limit e r c : limit (touch e r c).2 = limit c.
Proof. unfold touch. case_decide; [done|]. by repeat case_match. Qed.

Lemma get_found k r c e : find k c = Found e → get k r c = Some (touch e r c).
Proof. intros H. by rewrite find_get, H. Qed.

Lemma get_absent k r c : find k c = Undefined → get k r c = Some (GetUndefined, c).
Proof. intros H. by rewrite find_get, H. Qed.

Lemma get_foreign k r c : find k c = Foreign → get k r c = None.
Proof. intros H. by rewrite find_get, H. Qed.

Lemma remove_found k c e : find k c = Found e → remove k c = Some (unlink e c).
Proof. intros H. by rewrite find_remove, H. Qed.

Lemma remove_absent k c : find k c = Undefined → remove k c = Some (None, c).
Proof. intros H. by rewrite find_remove, H. Qed.

(** The two branches of [set]. *)
Lemma set_present k (v : V) c e :
  find k c = Found e →
  set k v c =
  let c1 := (touch e true c).2 in
  Some (value_of (store c1) e,
        mkCache (limit c1) (size c1) (keymap c1) (head c1) (tail c1)
                (set_value e v (store c1))).
Proof.
  intros Hk. unfold set. rewrite (get_found _ _ _ _ Hk).
  pose proof (touch_true_result e c) as Hr.
  destruct (touch e true c) as [r c1]. simpl in *. by subst.
Qed.

Lemma set_absent k (v : V) c :
  find k c = Undefined →
  set k v c =
  Some match put k v c with
       | (Some old, c2) => (value_of (store c2) old, c2)
       | (None, c2) => (None, c2)
       end.
Proof. intros Hk. unfold set. by rewrite get_absent. Qed.

Lemma set_foreign k (v : V) c : find k c = Foreign → set k v c = None.
Proof. intros Hk. unfold set. by rewrite get_foreign. Qed.

Lemma wf_set k (v : V) c old c' : wf c → set k v c = Some (old, c') → wf c'.
Proof.
  intros Hwf. destruct (find k c) as [|e|] eqn:Ek.
  - rewrite (set_absent _ _ _ Ek).
    pose proof (wf_put k v c Hwf) as H.
    destruct (put k v c) as [[o|] c2]; by intros [= _ <-].
  - rewrite (set_present _ _ _ _ Ek). cbv zeta. intros [= _ <-].
    assert (e < length (store c)) as He by by eapply wf_keymap_get.
    pose proof (wf_touch e true c Hwf He) as (Hh & Ht & Hk & Hcl & Hr).
    (split; [|split; [|split; [|split]]]); simpl; try refs.
    + intros k' a Hka. destruct (Hk _ _ Hka) as [Hkey Hval].
      rewrite key_set_value, value_set_value. split; [done|].
      apply key_of_lt in Hkey as Hlt.
      repeat case_decide; subst; first [done|by eexists|lia].
    + realm.
  - by rewrite (set_foreign _ _ _ Ek).
Qed.

Lemma wf_unlink e c : wf c → e < length (store c) → wf (unlink e c).2.
Proof.
  intros Hwf He%ref_ok_Some. unfold unlink.
  pose proof Hwf as (Hh & Ht & Hk & Hcl & Hr).
  destruct (newer_of (store c) e) as [y|] eqn:En;
    destruct (older_of (store c) e) as [z|] eqn:Eo; simpl;
    (split; [|split; [|split; [|split]]]); simpl; try refs.
  all: try realm.
  all: intros k' a Hka%keymap_delete_Some; autorewrite with store; by apply Hk.
Qed.

Lemma wf_remove k c old c' : wf c → remove k c = Some (old, c') → wf c'.
Proof.
  intros Hwf. rewrite find_remove. destruct (find k c) as [|e|] eqn:Ek; [| |done].
  - by intros [= _ <-].
  - intros [= H]. apply (f_equal snd) in H. simpl in H. subst c'.
    apply wf_unlink; [done|]. by eapply wf_keymap_get.
Qed.

Lemma wf_removeAll c : wf c → wf (removeAll c).
Proof.
  intros (Hh & Ht & Hk & Hcl & Hr). repeat split; simpl; try by intros ?.
  all: first [apply Hcl|done].
Qed.

Lemma reachable_wf c : reachable c → wf c.
Proof.
  induction 1 as [lim|k v c _ IH|c _ IH|k r c res c' _ IH Hg
                  |k v c old c' _ IH Hs|k c old c' _ IH Hr|c _ IH].
  - apply wf_construct.
  - by apply wf_put.
  - by apply wf_shift.
  - by eapply wf_get.
  - by eapply wf_set.
  - by eapply wf_remove.
  - by apply wf_removeAll.
Qed.

End WellFormedSetRemove.

(** ** The counters: [size] and [limit] *)

Section Counters.
Context {V : Type}.

Implicit Types (st : list (Entry V)) (c : LRUCache V) (a b e : addr).

Lemma shift_size c : size (shift c).2 = size c.
Proof. unfold shift. by repeat case_match. Qed.

Lemma shift_limit c : limit (shift c).2 = limit c.
Proof. unfold shift. by repeat case_match. Qed.

Lemma shift_tail c : tail (shift c).2 = tail c.
Proof. unfold shift. by repeat case_match. Qed.

Lemma put_linked_size k (v : V) c : size (put_linked k v c) = size c.
Proof. unfold put_linked. by case_match. Qed.

Lemma put_linked_limit k (v : V) c : limit (put_linked k v c) = limit c.
Proof. unfold put_linked. by case_match. Qed.

Lemma put_limit k (v : V) c : limit (put k v c).2 = limit c.
Proof.
  unfold put. case_match; simpl; rewrite ?shift_limit; apply put_linked_limit.
Qed.

Lemma put_size k (v : V) c :
  size (put k v c).2 = if (size c =? limit c)%Z then size c else (size c + 1)%Z.
Proof.
  unfold put. cbv zeta. rewrite put_linked_size, put_linked_limit.
  case_match; simpl; by rewrite ?shift_size, ?put_linked_size.
Qed.

Lemma put_trace_bound kvs c :
  (size c ≤ limit c)%Z →
  Forall (λ c', limit c' = limit c ∧ (size c' ≤ limit c)%Z) (put_trace kvs c).
Proof.
  revert c. induction kvs as [|[k v] kvs IH]; intros c Hc; simpl; [constructor|].
  assert (limit (put k v c).2 = limit c) as El by apply put_limit.
  assert (size (put k v c).2 ≤ limit c)%Z as Es.
  { rewrite put_size. destruct (Z.eqb_spec (size c) (limit c)); lia. }
  constructor; [done|].
  specialize (IH (put k v c).2). rewrite El in IH. by apply IH.
Qed.

Lemma put_trace_never_full kvs c :
  (limit c < size c)%Z →
  size <$> put_trace kvs c =
  (λ i, (size c + Z.of_nat i)%Z) <$> seq 1 (length kvs).
Proof.
  revert c. induction kvs as [|[k v] kvs IH]; intros c Hc; [done|].
  assert (size (put k v c).2 = size c + 1)%Z as Es.
  { rewrite put_size. destruct (Z.eqb_spec (size c) (limit c)); lia. }
  cbn [put_trace length seq fmap list_fmap]. f_equal; [by rewrite Es|].
  rewrite IH by (rewrite put_limit; lia).
  rewrite <- (fmap_S_seq 1), <- list_fmap_compose.
  apply list_fmap_ext. intros i x _. simpl. rewrite Es. lia.
Qed.

End Counters.

(** ** The chain under the methods *)

Section Chains.
Context {V : Type}.

Implicit Types (st : list (Entry V)) (c : LRUCache V) (a b e h t : addr).
Implicit Types (l : list addr) (p n o x : option addr).

Lemma from_option_Some_None (x : option addr) : from_option Some None x = x.
Proof. by destruct x. Qed.

Lemma seg_middle st p l1 e l2 n :
  seg st p (l1 ++ e :: l2) n ↔
  seg st p l1 (Some e) ∧ e < length st ∧
  older_of st e = from_option Some p (last l1) ∧
  newer_of st e = from_option Some n (hd_error l2) ∧
  seg st (Some e) l2 n.
Proof. rewrite seg_app. simpl. tauto. Qed.

Lemma chain_nil st : chain st [] None None.
Proof. repeat split. constructor. Qed.

(** Line 65 of [put]: the new entry is the last one of the chain. *)
Lemma chain_put_linked k (v : V) c l :
  chain (store c) l (head c) (tail c) →
  let c1 := put_linked k v c in
  chain (store c1) (l ++ [length (store c)]) (head c1) (tail c1).
Proof.
  intros Hc. pose proof Hc as (Hnd & Hh & Ht & Hs).
  assert (length (store c) ∉ l) as Hfresh.
  { intros Hin. eapply seg_lt in Hin; [|exact Hs]. lia. }
  assert (NoDup (l ++ [length (store c)])) as Hnd'.
  { apply NoDup_app. repeat split; [done| |apply NoDup_singleton].
    intros y Hy ->%list_elem_of_singleton. done. }
  unfold put_linked. destruct (tail c) as [t|] eqn:Et; simpl.
  - symmetry in Ht. apply last_Some in Ht as [l0 ->].
    repeat split; [done| |by rewrite last_snoc|].
    + rewrite Hh. by destruct l0.
    + apply (proj2 (seg_snoc _ _ _ _ _)). autorewrite with store.
      rewrite newer_alloc, older_alloc, !length_app. simpl.
      apply NoDup_app in Hnd as (_ & Hdisj & _).
      assert (t ∉ l0) as Htl0.
      { intros Hin. eapply Hdisj; [exact Hin|]. by apply list_elem_of_singleton. }
      assert (t ≠ length (store c)) as Hta.
      { intros ->. apply Hfresh. apply elem_of_app. right. by left. }
      rewrite last_snoc. simpl.
      rewrite !decide_True by (done || lia). rewrite decide_False by done.
      rewrite decide_True by done. simpl.
      repeat split; [|lia].
      apply seg_set_older_notin; [done|].
      eapply seg_set_newer_last; [done|]. apply seg_alloc, Hs.
  - symmetry in Ht. apply last_None in Ht as ->. simpl.
    split; [done|]. do 2 (split; [done|]). simpl.
    rewrite newer_alloc, older_alloc, length_app.
    simpl. rewrite !decide_True by done. repeat split; lia.
Qed.

Lemma put_linked_keymap k (v : V) c :
  keymap (put_linked k v c) = <[k:=length (store c)]> (keymap c).
Proof. unfold put_linked. by case_match. Qed.

Lemma put_linked_key k (v : V) c a :
  key_of (store (put_linked k v c)) a =
  if decide (a = length (store c)) then Some k else key_of (store c) a.
Proof.
  unfold put_linked. case_match; simpl; autorewrite with store; apply key_alloc.
Qed.

Lemma put_linked_value k (v : V) c a :
  value_of (store (put_linked k v c)) a =
  if decide (a = length (store c)) then Some v else value_of (store c) a.
Proof.
  unfold put_linked. case_match; simpl; autorewrite with store; apply value_alloc.
Qed.

Lemma put_linked_length k (v : V) c :
  length (store (put_linked k v c)) = S (length (store c)).
Proof.
  unfold put_linked. case_match; simpl; autorewrite with store;
    rewrite length_app; simpl; lia.
Qed.

Lemma put_linked_tail k (v : V) c :
  tail (put_linked k v c) = Some (length (store c)).
Proof. unfold put_linked. by case_match. Qed.

Lemma put_linked_head k (v : V) c :
  head (put_linked k v c) =
  match tail c with Some _ => head c | None => Some (length (store c)) end.
Proof. unfold put_linked. by case_match. Qed.

Lemma indexed_put_linked k (v : V) c l :
  indexed c l → (∀ a, a ∈ l → a < length (store c)) →
  indexed (put_linked k v c) (l ++ [length (store c)]).
Proof.
  intros Hi Hlt k' a. rewrite put_linked_keymap, put_linked_key, lookup_insert.
  case_decide as E.
  - intros [= <-]. subst. rewrite decide_True by done. split; [|done].
    apply elem_of_app. right. by left.
  - intros Hka. destruct (Hi _ _ Hka) as [Hin Hkey].
    specialize (Hlt _ Hin). rewrite decide_False by lia. split; [|done].
    apply elem_of_app. by left.
Qed.

End Chains.

Section ChainsShiftPut.
Context {V : Type}.

Implicit Types (st : list (Entry V)) (c : LRUCache V) (a b e h t : addr).
Implicit Types (l : list addr) (p n o x : option addr).

Lemma shift_none c : head c = None → shift c = (None, c).
Proof. intros H. unfold shift. by rewrite H. Qed.

Lemma shift_result c : (shift c).1 = head c.
Proof. unfold shift. by repeat case_match. Qed.

Lemma shift_key c a : key_of (store (shift c).2) a = key_of (store c) a.
Proof.
  unfold shift. destruct (head c) as [h|]; [|done].
  destruct (newer_of (store c) h); simpl; by autorewrite with store.
Qed.

Lemma shift_value c a : value_of (store (shift c).2) a = value_of (store c) a.
Proof.
  unfold shift. destruct (head c) as [h|]; [|done].
  destruct (newer_of (store c) h); simpl; by autorewrite with store.
Qed.

Lemma shift_length c : length (store (shift c).2) = length (store c).
Proof.
  unfold shift. destruct (head c) as [h|]; [|done].
  destruct (newer_of (store c) h); simpl; by autorewrite with store.
Qed.

Lemma shift_keymap c h :
  head c = Some h →
  keymap (shift c).2 = keymap_delete (key_of (store c) h) (keymap c).
Proof.
  intros H. unfold shift. rewrite H.
  destruct (newer_of (store c) h); simpl; by autorewrite with store.
Qed.

Lemma shift_head c h : head c = Some h → head (shift c).2 = newer_of (store c) h.
Proof. intros H. unfold shift. rewrite H. by destruct (newer_of (store c) h). Qed.

(** [shift] on a chain of two entries or more: the rest of the chain. *)
Lemma chain_shift c h l' :
  chain (store c) (h :: l') (head c) (tail c) → l' ≠ [] →
  chain (store (shift c).2) l' (head (shift c).2) (tail (shift c).2).
Proof.
  intros (Hnd & Hh & Ht & Hs) Hne.
  destruct l' as [|y l'']; [done|]. clear Hne.
  destruct Hs as (Hlt & Ho & Hn & Hs). simpl in Hn, Hh.
  apply NoDup_cons in Hnd as [Hhl Hnd].
  pose proof Hnd as [Hyl _]%NoDup_cons.
  unfold shift. rewrite Hh, Hn. simpl.
  split; [done|]. split; [done|]. split; [by rewrite Ht, last_cons_cons|].
  apply seg_set_newer_notin; [done|].
  apply seg_set_older_notin; [done|].
  by eapply seg_set_older_head.
Qed.

(** What [delete this.keymap[entry.key]] leaves of the index: no binding of
    [e], unless [e] is the prototype of the index. *)
Lemma indexed_delete c l e k a :
  indexed c l → keymap c !! "__proto__" ≠ Some e →
  keymap_delete (key_of (store c) e) (keymap c) !! k = Some a →
  a ≠ e ∧ a ∈ l ∧ key_of (store c) a = Some k.
Proof.
  intros Hi Hp Hka. pose proof (keymap_delete_Some _ _ _ _ Hka) as Hka'.
  destruct (Hi _ _ Hka') as [Hin Hkey]. split; [|done].
  intros ->. rewrite Hkey in Hka. unfold keymap_delete in Hka. simpl in Hka.
  case_decide as E; [subst k; done|]. by rewrite lookup_delete_eq in Hka.
Qed.

Lemma indexed_shift c h l' :
  indexed c (h :: l') → head c = Some h →
  keymap c !! "__proto__" ≠ Some h →
  indexed (shift c).2 l'.
Proof.
  intros Hi Hh Hp k a. rewrite (shift_keymap _ _ Hh), shift_key.
  intros (Hne & Hin & Hkey)%(indexed_delete _ _ _ _ _ Hi Hp).
  split; [|done]. by apply elem_of_cons in Hin as [->|].
Qed.

Lemma linked_lt c l a : linked c l → a ∈ l → a < length (store c).
Proof. intros ((_ & _ & _ & Hs) & _) Ha. by eapply seg_lt. Qed.

(** The chain after [put], whatever the index holds: on a cache that is not
    both empty and full, the new entry is last, and the first entry is gone
    when the cache was full. *)
Lemma chain_put k (v : V) c l :
  chain (store c) l (head c) (tail c) → l ≠ [] ∨ size c ≠ limit c →
  let c' := (put k v c).2 in
  chain (store c') 
    (if (size c =? limit c)%Z then drop 1 l ++ [length (store c)]
     else l ++ [length (store c)])
    (head c') (tail c').
Proof.
  intros Hc Hne. pose proof (chain_put_linked k v c l Hc) as Hc1.
  cbv zeta in *. unfold put. cbv zeta.
  rewrite put_linked_size, put_linked_limit.
  destruct (Z.eqb_spec (size c) (limit c)) as [E|E]; [|done].
  destruct l as [|h l']; [by destruct Hne|]. cbn [drop]. rewrite drop_0.
  eapply chain_shift; [exact Hc1|]. by destruct l'.
Qed.

(** [put] on a cache that is not both empty and of limit 0, and whose first
    entry is not the prototype of the index. *)
Lemma linked_put k (v : V) c l :
  linked c l → l ≠ [] ∨ limit c ≠ 0%Z →
  (∀ h, head c = Some h → keymap c !! "__proto__" ≠ Some h) →
  linked (put k v c).2
    (if (size c =? limit c)%Z then drop 1 l ++ [length (store c)]
     else l ++ [length (store c)]).
Proof.
  intros Hl Hlim Hp. pose proof Hl as (Hc & Hsz & Hi).
  pose proof (chain_put_linked k v c l Hc) as Hc1. cbv zeta in Hc1.
  pose proof (indexed_put_linked k v c l Hi (λ a, linked_lt c l a Hl)) as Hi1.
  unfold put. cbv zeta. rewrite put_linked_size, put_linked_limit.
  destruct (Z.eqb_spec (size c) (limit c)) as [E|E].
  - destruct l as [|h l']; [simpl in Hsz; destruct Hlim; [done|lia]|]. cbn [drop].
    assert (head (put_linked k v c) = Some h) as Hh1.
    { by destruct Hc1 as (_ & -> & _). }
    assert (head c = Some h) as Hh by by destruct Hc as (_ & -> & _).
    split; [|split].
    + eapply chain_shift; [exact Hc1|]. by destruct l'.
    + rewrite shift_size, put_linked_size, Hsz, drop_0, !length_app.
      cbn [length]. lia.
    + eapply indexed_shift; [done..|].
      rewrite put_linked_keymap, lookup_insert. case_decide; [|by apply Hp].
      intros [= Heq]. assert (h < length (store c)); [|lia].
      apply (linked_lt _ _ _ Hl). by left.
  - split; [|split]; simpl; [done| |done].
    rewrite ?put_linked_size, Hsz, length_app. cbn [length]. lia.
Qed.

End ChainsShiftPut.

Section ChainsGet.
Context {V : Type}.

Implicit Types (st : list (Entry V)) (c : LRUCache V) (a b e h t : addr).
Implicit Types (l : list addr) (p n o x : option addr).

Lemma touch_tail e r c :
  tail c = Some e → touch e r c = (get_return r (store c) e, c).
Proof. intros Ht. unfold touch. rewrite Ht. by rewrite decide_True. Qed.

(** [get] moves the entry it finds behind the last one. *)
Lemma linked_touch r c l1 e l2 :
  linked c (l1 ++ e :: l2) →
  linked (touch e r c).2 (l1 ++ l2 ++ [e]).
Proof.
  intros Hl. pose proof Hl as ((Hnd & Hh & Ht & Hs) & Hsz & Hi).
  destruct l2 as [|y l2'].
  { rewrite last_app_cons in Ht. simpl in Ht.
    rewrite (touch_tail _ _ _ Ht). exact Hl. }
  clear Hl.
  assert (l1 ++ (y :: l2') ++ [e] ≡ₚ l1 ++ e :: y :: l2') as Hperm.
  { by rewrite <- Permutation_cons_append. }
  pose proof Hnd as Hnd0.
  apply NoDup_app in Hnd as (Hnd1 & Hd1 & Hnd2).
  apply NoDup_cons in Hnd2 as [Hel2 Hnd2].
  assert (e ∉ l1) as Hel1.
  { intros Hin. eapply Hd1; [exact Hin|]. by left. }
  assert (∀ a, a ∈ l1 → a ∉ y :: l2') as Hd12.
  { intros a Ha Hin. eapply Hd1; [exact Ha|]. by right. }
  apply seg_middle in Hs as (HsA & Hlt & Ho & Hn & HsB).
  rewrite from_option_Some_None in Ho. simpl in Hn.
  rewrite last_app_cons, last_cons_cons in Ht.
  destruct (last_is_Some (y :: l2')) as [_ [t Hlast]]; [done|].
  rewrite Hlast in Ht.
  assert (t ∈ y :: l2') as Htin by by apply last_Some_elem_of.
  assert (t ≠ e) as Hte by (intros ->; done).
  assert (y ≠ e) as Hye.
  { intros ->. apply Hel2. by left. }
  pose proof Hnd2 as [Hyl2 _]%NoDup_cons.
  (* the store after lines 125-131 *)
  set (st1 := set_older y (older_of (store c) e) (store c)).
  set (st2 := match older_of st1 e with
              | Some o => set_newer o (newer_of st1 e) st1
              | None => st1
              end).
  assert (length st2 = length (store c)) as Hlen2.
  { subst st2 st1. case_match; by autorewrite with store. }
  assert (seg st2 None (l1 ++ y :: l2') None) as Hs2.
  { apply seg_app. rewrite from_option_Some_None. cbn [hd_error from_option].
    assert (older_of st1 e = last l1) as Eo1.
    { subst st1. autorewrite with store. by rewrite decide_False. }
    assert (newer_of st1 e = Some y) as En1.
    { subst st1. by autorewrite with store. }
    assert (seg st1 None l1 (Some e)) as HsA1.
    { apply seg_set_older_notin; [|done]. intros Hin. eapply Hd12; [exact Hin|by left]. }
    assert (seg st1 (last l1) (y :: l2') None) as HsB1.
    { subst st1. rewrite Ho. by eapply seg_set_older_head. }
    subst st2. rewrite Eo1, En1.
    destruct (last l1) as [o|] eqn:El1.
    - apply last_Some in El1 as [l1' ->].
      apply NoDup_app in Hnd1 as (_ & Hd & _).
      split.
      + eapply seg_set_newer_last; [|exact HsA1].
        intros Hin. eapply Hd; [exact Hin|by left].
      + apply seg_set_newer_notin; [|done].
        apply Hd12. apply elem_of_app. right. by left.
    - apply last_None in El1 as ->. done. }
  assert (∀ a, key_of st2 a = key_of (store c) a) as Hkey2.
  { intros a. subst st2 st1. case_match; by autorewrite with store. }
  unfold touch. rewrite Ht, decide_False by congruence. rewrite Hn.
  fold st1. fold st2. fields.
  split; [split; [|split; [|split]]|split]; fields.
  - by rewrite Hperm.
  - rewrite Hh. destruct l1; simpl; [by rewrite decide_True|].
    rewrite decide_False; [done|]. intros [= ->]. apply Hel1. by left.
  - by rewrite !app_assoc, last_snoc.
  - rewrite app_assoc. apply seg_snoc.
    autorewrite with store. rewrite Hlen2.
    rewrite !decide_True by done. rewrite decide_False by done.
    rewrite decide_True by done.
    rewrite last_app_cons, Hlast. simpl.
    split; [|split; [done|split; [done|by case_decide]]].
    destruct (last_Some (l1 ++ y :: l2') t) as [[m Hm] _].
    { by rewrite last_app_cons. }
    assert (NoDup (l1 ++ y :: l2')) as Hnd'.
    { apply NoDup_app. by repeat split. }
    rewrite Hm in Hs2, Hnd' |- *.
    eapply seg_set_newer_last.
    + apply NoDup_app in Hnd' as (_ & Hd & _).
      intros Hin. eapply Hd; [exact Hin|by left].
    + assert (e ∉ m ++ [t]) as Hem.
      { rewrite <- Hm. intros [?|?]%elem_of_app; done. }
      apply seg_set_older_notin; [done|].
      apply seg_set_newer_notin; [done|]. exact Hs2.
  - rewrite Hsz, !length_app. cbn [length]. rewrite ?length_app. cbn [length]. lia.
  - intros k' a Hka. destruct (Hi _ _ Hka) as [Hin Hkey]. split.
    + by rewrite Hperm.
    + fields. autorewrite with store. by rewrite Hkey2.
Qed.

End ChainsGet.

Section ChainsRemove.
Context {V : Type}.

Implicit Types (st : list (Entry V)) (c : LRUCache V) (a b e h t : addr).
Implicit Types (l : list addr) (p n o x : option addr).

Lemma linked_construct lim : linked (@construct V lim) [].
Proof.
  split; [apply chain_nil|]. split; [done|].
  intros k a Hka. simpl in Hka. by rewrite lookup_empty in Hka.
Qed.

Lemma linked_removeAll c : linked (removeAll c) [].
Proof.
  split; [apply chain_nil|]. split; [done|].
  intros k a Hka. simpl in Hka. by rewrite lookup_empty in Hka.
Qed.

(** [remove] unlinks the entry it finds; the index is left without it unless
    the entry is the prototype of the index. *)
Lemma linked_unlink c l1 e l2 :
  linked c (l1 ++ e :: l2) → keymap c !! "__proto__" ≠ Some e →
  linked (unlink e c).2 (l1 ++ l2).
Proof.
  intros ((Hnd & Hh & Ht & Hs) & Hsz & Hi) Hp.
  apply NoDup_app in Hnd as (Hnd1 & Hd1 & Hnd2).
  apply NoDup_cons in Hnd2 as [Hel2 Hnd2].
  assert (e ∉ l1) as Hel1.
  { intros Hin. eapply Hd1; [exact Hin|]. by left. }
  assert (∀ a, a ∈ l1 → a ∉ l2) as Hd12.
  { intros a Ha Hin. eapply Hd1; [exact Ha|]. by right. }
  assert (NoDup (l1 ++ l2)) as Hnd' by (apply NoDup_app; by repeat split).
  apply seg_middle in Hs as (HsA & Hlt & Ho & Hn & HsB).
  rewrite from_option_Some_None in Ho, Hn.
  unfold unlink. rewrite Hn, Ho.
  assert (∀ st', (∀ a, key_of st' a = key_of (store c) a) →
    ∀ hd tl sz,
      indexed (mkCache (limit c) sz
                 (keymap_delete (key_of (store c) e) (keymap c)) hd tl st')
              (l1 ++ l2)) as Hidx.
  { intros st' Hst' hd tl sz k' a Hka. cbn [keymap] in Hka.
    apply (indexed_delete _ _ _ _ _ Hi Hp) in Hka as (Hne & Hin & Hkey').
    fields. rewrite Hst'. split; [|done].
    apply elem_of_app in Hin as [?|[->|?]%elem_of_cons];
      [apply elem_of_app; by left|done|apply elem_of_app; by right]. }
  assert (size c - 1 = Z.of_nat (length (l1 ++ l2)))%Z as Hsz'.
  { rewrite Hsz, !length_app. cbn [length]. lia. }
  destruct l2 as [|y l2']; destruct (last l1) as [o|] eqn:El1; cbn [hd_error];
    fields.
  - (* last entry of several *)
    apply last_Some in El1 as [l1' ->]. rewrite app_nil_r in *.
    split; [split; [done|split; [|split]]|split]; fields; try done.
    + rewrite Hh. by destruct l1'.
    + by rewrite last_snoc.
    + eapply seg_set_newer_last; [|exact HsA].
      apply NoDup_app in Hnd1 as (_ & Hd & _).
      intros Hin. eapply Hd; [exact Hin|by left].
    + apply Hidx. intros a. by autorewrite with store.
  - (* the only entry *)
    apply last_None in El1 as ->. simpl.
    split; [apply chain_nil|]. split; [done|]. by apply Hidx.
  - (* an inner entry *)
    apply last_Some in El1 as [l1' ->].
    pose proof Hnd2 as [Hyl2 _]%NoDup_cons.
    split; [split; [done|split; [|split]]|split]; fields; try done.
    + rewrite Hh. by destruct l1'.
    + rewrite Ht. by rewrite !last_app_cons, last_cons_cons.
    + apply seg_app. rewrite last_snoc. cbn [hd_error from_option]. split.
      * apply seg_set_older_notin.
        { intros Hin. eapply Hd12; [exact Hin|by left]. }
        eapply seg_set_newer_last; [|exact HsA].
        apply NoDup_app in Hnd1 as (_ & Hd & _).
        intros Hin. eapply Hd; [exact Hin|by left].
      * eapply seg_set_older_head; [done|].
        apply seg_set_newer_notin; [|exact HsB].
        apply Hd12. apply elem_of_app. right. by left.
    + apply Hidx. intros a. by autorewrite with store.
  - (* first entry of several *)
    apply last_None in El1 as ->. cbn [app] in *.
    pose proof Hnd2 as [Hyl2 _]%NoDup_cons.
    split; [split; [done|split; [done|split]]|split]; fields; try done.
    + by eapply seg_set_older_head.
    + apply Hidx. intros a. by autorewrite with store.
Qed.


End ChainsRemove.

(** ** [set] and the invariant *)

Section ChainsSet.
Context {V : Type}.

Implicit Types (st : list (Entry V)) (c : LRUCache V) (a b e h t : addr).
Implicit Types (l : list addr) (p n o x : option addr).

Lemma linked_fields c c' l :
  store c = store c' → head c = head c' → tail c = tail c' →
  size c = size c' → keymap c = keymap c' →
  linked c l → linked c' l.
Proof.
  intros Hs Hh Ht Hz Hk. unfold linked, chain, indexed.
  by rewrite Hs, Hh, Ht, Hz, Hk.
Qed.

Lemma linked_set_value c l e (v : V) :
  linked c l →
  linked (mkCache (limit c) (size c) (keymap c) (head c) (tail c)
                  (set_value e v (store c))) l.
Proof.
  intros ((Hnd & Hh & Ht & Hs) & Hsz & Hi).
  split; [split; [done|split; [done|split; [done|]]]|split; [done|]]; fields.
  - by apply seg_set_value.
  - intros k a Hka. fields. autorewrite with store. by apply Hi.
Qed.

(** The index after [put]. *)
Lemma put_keymap k (v : V) c :
  keymap (put k v c).2 =
  if (size c =? limit c)%Z then
    match head (put_linked k v c) with
    | Some h =>
      keymap_delete (key_of (store (put_linked k v c)) h)
                    (<[k:=length (store c)]> (keymap c))
    | None => <[k:=length (store c)]> (keymap c)
    end
  else <[k:=length (store c)]> (keymap c).
Proof.
  unfold put. cbv zeta. rewrite put_linked_size, put_linked_limit.
  destruct (size c =? limit c)%Z; [|apply put_linked_keymap].
  destruct (head (put_linked k v c)) as [h|] eqn:Eh.
  - by rewrite (shift_keymap _ _ Eh), put_linked_keymap.
  - rewrite shift_none by done. apply put_linked_keymap.
Qed.

Lemma unlink_keymap e c :
  keymap (unlink e c).2 = keymap_delete (key_of (store c) e) (keymap c).
Proof.
  unfold unlink. by destruct (newer_of (store c) e), (older_of (store c) e).
Qed.

(** *** An index without a prototype entry stays so under ordinary keys *)

Lemma plain_construct lim : plain_index (@construct V lim).
Proof. apply lookup_empty. Qed.

Lemma plain_removeAll c : plain_index (removeAll c).
Proof. apply lookup_empty. Qed.


Lemma plain_put k (v : V) c :
  k ≠ "__proto__" → plain_index c → plain_index (put k v c).2.
Proof.
  unfold plain_index. intros Hk H. rewrite put_keymap.
  repeat case_match; rewrite ?keymap_delete_proto, lookup_insert_ne; done.
Qed.

Lemma plain_touch e r c : plain_index c → plain_index (touch e r c).2.
Proof. unfold plain_index. by rewrite touch_keymap. Qed.

Lemma plain_unlink e c : plain_index c → plain_index (unlink e c).2.
Proof. unfold plain_index. by rewrite unlink_keymap, keymap_delete_proto. Qed.

Lemma find_ordinary k c :
  ordinary k → plain_index c →
  find k c = from_option Found Undefined (keymap c !! k).
Proof. apply keymap_get_ordinary. Qed.

(** *** The invariant *)


Lemma Inv_removeAll c : Inv (removeAll c).
Proof. eexists. apply linked_removeAll. Qed.






(** Under the invariant both loops end, after [size] entries. *)
Lemma linked_key_value c l :
  linked c l → is_Some (mapM (key_value (store c)) l).
Proof.
  intros Hl. apply mapM_is_Some, Forall_forall. intros a Ha.
  apply (linked_lt _ _ _ Hl) in Ha. apply lookup_lt_is_Some_2 in Ha as [x Hx].
  unfold key_value. simpl. rewrite Hx. by eexists.
Qed.



End ChainsSet.

(** ** The example caches, and [put] under the invariant *)

Lemma wf_cache_a : wf cache_a.
Proof. apply wf_put, wf_construct. Qed.

Lemma wf_cache_ab : wf cache_ab.
Proof. apply wf_put, wf_cache_a. Qed.

Lemma plain_cache_a : plain_index cache_a.
Proof. reflexivity. Qed.

Lemma plain_cache_ab : plain_index cache_ab.
Proof. reflexivity. Qed.

Lemma ordinary_a : ordinary "a".
Proof. by split. Qed.

Lemma ordinary_b : ordinary "b".
Proof. by split. Qed.

Lemma ordinary_c : ordinary "c".
Proof. by split. Qed.

Lemma linked_cache_a : linked cache_a [11].
Proof.
  apply (linked_put "a" 1%Z (construct 5) []); [apply linked_construct|by right|done].
Qed.

Lemma linked_cache_ab : linked cache_ab [11; 12].
Proof.
  apply (linked_put "b" 2%Z cache_a [11]); [apply linked_cache_a|by left|].
  intros h _. by rewrite plain_cache_a.
Qed.

Lemma linked_cache_full : linked cache_full [11].
Proof.
  apply (linked_put "a" 1%Z (construct 1) []); [apply linked_construct|by right|done].
Qed.

Lemma linked_cache_two : linked cache_two [11; 12].
Proof.
  apply (linked_put "b" 2%Z (put "a" 1%Z (construct 2)).2 [11]); [|by left|done].
  apply (linked_put "a" 1%Z (construct 2) []); [apply linked_construct|by right|done].
Qed.

Lemma reachable_cache_ab : reachable cache_ab.
Proof. apply reach_put, reach_put, reach_construct. Qed.

Lemma chain_entries {V : Type} (c : LRUCache V) (l : list addr) :
  chain (store c) l (head c) (tail c) →
  entries c = Some l ∧ entries_desc c = Some (reverse l).
Proof.
  intros Hc. pose proof (chain_length _ _ _ _ Hc) as Hlen.
  destruct Hc as (_ & Hh & Ht & Hs). unfold entries, entries_desc.
  rewrite Hh, Ht. split; [by eapply walk_newer_seg|by eapply walk_older_seg].
Qed.

Lemma put_key {V : Type} (k : string) (v : V) (c : LRUCache V) (a : addr) :
  key_of (store (put k v c).2) a =
  if decide (a = length (store c)) then Some k else key_of (store c) a.
Proof.
  unfold put. cbv zeta. case_match; fields; rewrite ?shift_key; apply put_linked_key.
Qed.

Lemma put_value {V : Type} (k : string) (v : V) (c : LRUCache V) (a : addr) :
  value_of (store (put k v c).2) a =
  if decide (a = length (store c)) then Some v else value_of (store c) a.
Proof.
  unfold put. cbv zeta. case_match; fields; rewrite ?shift_value;
    apply put_linked_value.
Qed.

Lemma put_length {V : Type} (k : string) (v : V) (c : LRUCache V) :
  length (store (put k v c).2) = S (length (store c)).
Proof.
  unfold put. cbv zeta. case_match; fields; rewrite ?shift_length;
    apply put_linked_length.
Qed.

Lemma put_result {V : Type} (k : string) (v : V) (c : LRUCache V) :
  (put k v c).1 =
  if (size c =? limit c)%Z then head (put_linked k v c) else None.
Proof.
  unfold put. cbv zeta. rewrite put_linked_size, put_linked_limit.
  destruct (size c =? limit c)%Z; [apply shift_result|done].
Qed.

Lemma put_tail {V : Type} (k : string) (v : V) (c : LRUCache V) :
  tail (put k v c).2 = Some (length (store c)).
Proof.
  unfold put. cbv zeta. case_match; fields; rewrite ?shift_tail;
    apply put_linked_tail.
Qed.

(** [put] under the invariant.  On a cache that satisfies it, with
    [size ≤ limit], [put key value] allocates a new entry holding [key] and
    [value], indexes it under [key] and links it behind the last entry of the
    chain.  If [size + 1] would then exceed [limit], [put] is [shift] on that
    state: it returns the first entry of the extended chain and leaves [size]
    as it was.  Otherwise it returns nothing and [size] grows by exactly 1. *)
Lemma put_spec {V : Type} (k : string) (v : V) (c : LRUCache V) (l : list addr) :
  linked c l → (size c ≤ limit c)%Z →
  let a := length (store c) in
  let c1 := put_linked k v c in
  ((a ∉ l) ∧ key_of (store c1) a = Some k ∧ value_of (store c1) a = Some v ∧
   keymap c1 = <[k:=a]> (keymap c) ∧ tail c1 = Some a ∧
   chain (store c1) (l ++ [a]) (head c1) (tail c1)) ∧
  ((limit c < size c + 1)%Z →
     put k v c = shift c1 ∧
     (∃ h, hd_error (l ++ [a]) = Some h ∧ head c1 = Some h ∧
           (put k v c).1 = Some h) ∧
     size (put k v c).2 = size c ∧
     (limit c ≠ 0%Z → entries (put k v c).2 = Some (drop 1 l ++ [a]))) ∧
  ((size c + 1 ≤ limit c)%Z →
     (put k v c).1 = None ∧
     (put k v c).2 = with_size (size c + 1) c1 ∧
     size (put k v c).2 = (size c + 1)%Z ∧
     entries (put k v c).2 = Some (l ++ [a])).
Proof.
  intros Hl Hle. cbv zeta. pose proof Hl as (Hc & Hsz & Hi).
  pose proof (chain_put_linked k v c l Hc) as Hc1. cbv zeta in Hc1.
  split; [|split].
  - split. { intros Hin. apply (linked_lt _ _ _ Hl) in Hin. lia. }
    rewrite put_linked_key, put_linked_value, put_linked_keymap, put_linked_tail.
    rewrite !decide_True by done. by rewrite put_linked_tail in Hc1.
  - intros Hlt. assert (size c = limit c) as E by lia.
    assert (put k v c = shift (put_linked k v c)) as Hput.
    { unfold put. cbv zeta.
      destruct (Z.eqb_spec (size (put_linked k v c)) (limit (put_linked k v c)))
        as [E'|E']; [done|].
      rewrite put_linked_size, put_linked_limit in E'. lia. }
    split; [done|]. rewrite Hput, shift_result, shift_size, put_linked_size.
    split; [|split; [done|]].
    + destruct Hc1 as (_ & -> & _). destruct l; by eexists.
    + intros Hlim. rewrite <- Hput.
      assert (l ≠ []) as Hne.
      { intros ->. simpl in Hsz. lia. }
      pose proof (chain_put k v c l Hc (or_introl Hne)) as Hc'. cbv zeta in Hc'.
      rewrite (proj2 (Z.eqb_eq _ _) E) in Hc'. by apply chain_entries.
  - intros Hlt. assert (size c ≠ limit c) as E by lia.
    assert (put k v c = (None, with_size (size c + 1) (put_linked k v c))) as Hput.
    { unfold put. cbv zeta.
      destruct (Z.eqb_spec (size (put_linked k v c)) (limit (put_linked k v c)))
        as [E'|E']; [|by rewrite put_linked_size].
      rewrite put_linked_size, put_linked_limit in E'. lia. }
    rewrite Hput. split; [done|]. split; [done|]. split; [done|].
    by apply (chain_entries (with_size (size c + 1) (put_linked k v c))).
Qed.

Lemma put_spec_example :
  linked cache_a [11] ∧ (size cache_a ≤ limit cache_a)%Z ∧
  (put "b" 2%Z cache_a).1 = None ∧
  size (put "b" 2%Z cache_a).2 = (size cache_a + 1)%Z ∧
  entries (put "b" 2%Z cache_a).2 = Some [11; 12].
Proof.
  assert (size cache_a ≤ limit cache_a)%Z as Hle by (vm_compute; discriminate).
  split; [apply linked_cache_a|]. split; [exact Hle|].
  destruct (put_spec "b" 2%Z cache_a [11] linked_cache_a Hle) as (_ & _ & H).
  destruct H as (Hr & _ & Hsz & He); [vm_compute; discriminate|].
  split; [exact Hr|]. split; [exact Hsz|exact He].
Defined.

(** The rest of [set] on an absent key: it is [put], and the result is the
    value of the entry that [put] returns, if any. *)
Lemma set_absent_result {V : Type} (k : string) (v : V) (c : LRUCache V) :
  find k c = Undefined →
  set k v c =
  Some ((put k v c).1 ≫= value_of (store (put k v c).2), (put k v c).2).
Proof.
  intros Hk. rewrite (set_absent _ _ _ Hk).
  by destruct (put k v c) as [[e|] c2].
Qed.

(** The other way the invariant is lost: the first [put] on a cache of
    limit 0 evicts the only entry, and [shift] leaves [tail] pointing at
    it. *)
Lemma put_limit_zero_stale_tail :
  head (put "a" 1%Z cache_zero).2 = None ∧
  tail (put "a" 1%Z cache_zero).2 = Some 11 ∧
  ¬ Inv (put "a" 1%Z cache_zero).2.
Proof.
  split; [reflexivity|]. split; [reflexivity|].
  intros [l ((_ & Hh & Ht & _) & _)].
  symmetry in Hh. apply head_None in Hh. subst l. discriminate Ht.
Qed.

(** * The claims *)

(** C1. For every non-negative limit and every finite sequence of [put]
    calls on a cache freshly built by [construct limit], the [size] field is
    at most [limit] after each [put] (and [limit] itself never changes). *)
Theorem put_size_within_limit {V : Type} (lim : Z) (kvs : list (string * V)) :
  (0 ≤ lim)%Z →
  Forall (λ c, limit c = lim ∧ (size c ≤ lim)%Z) (put_trace kvs (construct lim)).
Proof.
  intros Hlim. apply (put_trace_bound kvs (construct lim)). simpl. lia.
Qed.

Lemma put_size_within_limit_witness :
  (0 ≤ 2)%Z ∧
  Forall (λ c : LRUCache Z, limit c = 2%Z ∧ (size c ≤ 2)%Z)
         (put_trace [("a", 1%Z); ("b", 2%Z); ("c", 3%Z)] (construct 2)).
Proof. split; [lia|apply put_size_within_limit; lia]. Defined.

(** C2.  The second [put] on a cache of limit 0.  The first one has evicted
    its own entry and [shift] has left [tail] pointing at it, with no [head].
    The second one links its entry behind that stale tail, finds
    [size = limit], calls [shift], which finds no head: nothing is evicted,
    nothing is returned, and the new key stays in the index of a cache whose
    limit is 0.  (The two entries are the objects 11 and 12 of the store;
    [keys] lists the new key unless it is ["__proto__"], which is never
    listed.) *)
Theorem put_limit_zero_keeps_entry {V : Type} (k1 k2 : string) (v1 v2 : V) :
  let c1 := (put k1 v1 (construct 0)).2 in
  let r := put k2 v2 c1 in
  (limit c1 < size c1 + 1)%Z ∧
  head c1 = None ∧ tail c1 = Some 11 ∧
  r.1 = None ∧
  find k2 r.2 = Found 12 ∧ (k2 ∈ keys r.2 ↔ k2 ≠ "__proto__") ∧
  head r.2 = None ∧ tail r.2 = Some 12 ∧
  size r.2 = 0%Z ∧ limit r.2 = 0%Z.
Proof.
  cbv zeta. unfold put, put_linked, shift, find, keys. simpl.
  split; [done|]. do 3 (split; [done|]).
  split; [apply keymap_get_own, lookup_insert_eq|].
  split; [|done].
  rewrite elem_of_elements, elem_of_dom, lookup_delete_is_Some, lookup_insert_eq.
  split; [by intros [? _]|]. intros Hne. split; [done|by eexists].
Qed.

(** C3 as stated: whenever [put] returns an evicted entry, its key is the
    key of the head observed before the call.  A first [put] on a cache of
    limit 0 returns the entry it has just inserted; there was no head. *)
Lemma put_evicted_entry_counterexample :
  ¬ (∀ (c : LRUCache Z) k v e,
       reachable c → (put k v c).1 = Some e →
       ∃ h, head c = Some h ∧
            key_of (store (put k v c).2) e = key_of (store c) h).
Proof.
  intros H.
  destruct (H (construct 0) "a" 1%Z 11 (reach_construct 0) eq_refl)
    as (h & Hh & _).
  discriminate Hh.
Qed.

(** C3, amended.  In every state with valid references in which a cache
    that has a head has a tail: when [put] returns an evicted entry and the
    cache had a head before the call, the evicted entry is that head, with
    the key it had; when the cache had no head, it had no tail either, and
    the evicted entry is the one [put] has just inserted, with the key that
    was put (under the invariant this takes a limit of 0). *)
Theorem put_evicted_entry {V : Type} (k : string) (v : V) (c : LRUCache V)
    (e : addr) :
  wf c → (tail c = None → head c = None) → (put k v c).1 = Some e →
  (head c = Some e ∧ e < length (store c) ∧
   key_of (store (put k v c).2) e = key_of (store c) e) ∨
  (head c = None ∧ tail c = None ∧ e = length (store c) ∧
   key_of (store (put k v c).2) e = Some k ∧
   (Inv c → limit c = 0%Z)).
Proof.
  intros (Hh & _) Hht.
  unfold put. cbv zeta. rewrite put_linked_size, put_linked_limit.
  destruct (Z.eqb_spec (size c) (limit c)) as [E|E]; [|done].
  rewrite shift_result, shift_key, put_linked_head, put_linked_key.
  destruct (tail c) as [t|] eqn:Et.
  - intros He. left. split; [done|]. specialize (Hh e He).
    split; [done|]. rewrite decide_False by lia. done.
  - intros [= <-]. right. rewrite decide_True by done.
    split; [by apply Hht|]. do 3 (split; [done|]).
    intros [l' ((_ & _ & Ht' & _) & Hsz & _)].
    rewrite Et in Ht'. symmetry in Ht'. apply last_None in Ht' as ->.
    rewrite <- E, Hsz. done.
Qed.

Lemma put_evicted_entry_witness :
  wf cache_full ∧ (tail cache_full = None → head cache_full = None) ∧
  (put "b" 2%Z cache_full).1 = Some 11 ∧
  head cache_full = Some 11.
Proof.
  assert (wf cache_full) as Hwf by apply wf_put, wf_construct.
  assert (tail cache_full = None → head cache_full = None) as Hht by done.
  split; [exact Hwf|]. split; [exact Hht|]. split; [reflexivity|].
  destruct (put_evicted_entry "b" 2%Z cache_full 11 Hwf Hht eq_refl)
    as [(H & _)|(H & _)]; [exact H|discriminate H].
Defined.




(** C5.  [set] on a fresh cache of limit 0, with a key that
    [Object.prototype] does not know: the key is absent, [put] evicts the
    entry it has just inserted (the object 11 of the store), and [set]
    returns the value it was given, as if it were a previous value.  The key
    is not indexed afterwards. *)
Theorem set_limit_zero_returns_new_value {V : Type} (k : string) (v : V) :
  ordinary k →
  find k (@construct V 0) = Undefined ∧
  (put k v (construct 0)).1 = Some 11 ∧
  ∃ c', set k v (construct 0) = Some (Some v, c') ∧ find k c' = Undefined.
Proof.
  intros Hk.
  assert (find k (@construct V 0) = Undefined) as Hf.
  { rewrite find_ordinary; [done..|apply plain_construct]. }
  split; [done|]. split; [done|].
  rewrite (set_absent_result _ _ _ Hf). exists (put k v (construct 0)).2. split.
  - reflexivity.
  - rewrite find_ordinary; [|done|apply plain_put, plain_construct; apply Hk].
    rewrite put_keymap. unfold keymap_delete. simpl.
    rewrite decide_False by apply Hk. by rewrite lookup_delete_eq.
Qed.

Lemma set_limit_zero_returns_new_value_witness :
  ordinary "a" ∧
  ∃ c', set "a" 1%Z (construct 0) = Some (Some 1%Z, c').
Proof.
  split; [exact ordinary_a|].
  destruct (set_limit_zero_returns_new_value "a" 1%Z ordinary_a)
    as (_ & _ & c' & H & _).
  by exists c'.
Defined.

(** [shift] on a cache with a head, in every state whose references are
    valid: it returns the head [h], makes the [newer] neighbour of [h] the
    head (or leaves no head), clears the [older] link of that neighbour and
    both links of [h], and deletes the key of [h] from the index.  Without
    head it returns nothing and changes nothing.  In no case does it change
    [size] or [tail]. *)
Lemma shift_head_spec {V : Type} (c : LRUCache V) :
  wf c →
  (head c = None → shift c = (None, c)) ∧
  (Inv c → size c = 0%Z → shift c = (None, c)) ∧
  (∀ h, head c = Some h →
     (shift c).1 = Some h ∧
     head (shift c).2 = newer_of (store c) h ∧
     (∀ n, newer_of (store c) h = Some n → older_of (store (shift c).2) n = None) ∧
     newer_of (store (shift c).2) h = None ∧
     older_of (store (shift c).2) h = None ∧
     keymap (shift c).2 = keymap_delete (key_of (store c) h) (keymap c) ∧
     ∀ k, key_of (store c) h = Some k → k ≠ "__proto__" →
          keymap (shift c).2 = delete k (keymap c)) ∧
  size (shift c).2 = size c ∧ tail (shift c).2 = tail c.
Proof.
  intros (Hh & _ & _ & Hcl & _).
  split; [apply shift_none|]. split.
  { intros [l ((_ & Hhd & _) & Hsz & _)] Hz. apply shift_none.
    rewrite Hhd. destruct l; [done|]. rewrite Hz in Hsz. simpl in Hsz. lia. }
  split; [|split; [apply shift_size|apply shift_tail]].
  intros h Eh. specialize (Hh h Eh).
  split; [by rewrite shift_result|]. split; [by apply shift_head|].
  rewrite (shift_keymap _ _ Eh).
  assert (∀ k, key_of (store c) h = Some k → k ≠ "__proto__" →
            keymap_delete (key_of (store c) h) (keymap c) = delete k (keymap c))
    as Hdel.
  { intros k -> Hk. by apply keymap_delete_key. }
  unfold shift. rewrite Eh.
  destruct (newer_of (store c) h) as [y|] eqn:En; fields.
  - assert (y < length (store c)) as Hy by by eapply newer_closed.
    autorewrite with store. rewrite !decide_True by done.
    split; [|done].
    intros n [= <-]. autorewrite with store. repeat case_decide; done.
  - autorewrite with store. by rewrite !decide_True by done.
Qed.

(** C6.  [shift] on a cache that is not empty and has no head.  After
    [put("a", 1)] on a new cache of limit 5, a call of [shift] removes the
    only entry and leaves [tail] pointing at it; [put("b", 2)] then links its
    entry behind that stale tail and never becomes the head.  The cache now
    has [size] 2 and indexes ["b"], and [shift] returns nothing and removes
    nothing. *)
Theorem shift_after_stale_tail :
  let c1 := (shift (put "a" 1%Z (construct 5)).2).2 in
  let c := (put "b" 2%Z c1).2 in
  reachable c ∧
  tail c1 = Some 11 ∧ head c1 = None ∧
  size c = 2%Z ∧ find "b" c = Found 12 ∧ keys c = ["b"] ∧
  head c = None ∧ tail c = Some 12 ∧
  shift c = (None, c).
Proof.
  cbv zeta. split; [apply reach_put, reach_shift, reach_put, reach_construct|].
  by vm_compute.
Qed.

(** [remove] on an ordinary key, on an index without prototype entry, in
    every state whose references are valid: on an indexed key it deletes the
    key from the index, bridges the neighbours of its entry (moving [head] or
    [tail] when the entry was first or last), decreases [size] by exactly 1
    and returns the value of the entry; afterwards [find key] is absent,
    [keys] does not list [key], and a chain that held the entry is the same
    chain without it.  On a key that is not indexed it returns nothing and
    leaves the cache as it is. *)
Lemma remove_spec {V : Type} (k : string) (c : LRUCache V) :
  wf c → plain_index c → ordinary k →
  (∀ e, keymap c !! k = Some e →
     let o := older_of (store c) e in
     let n := newer_of (store c) e in
     ∃ c', remove k c = Some (value_of (store c) e, c') ∧
     is_Some (value_of (store c) e) ∧
     keymap c' = delete k (keymap c) ∧
     (∀ y, o = Some y → newer_of (store c') y = n) ∧
     (∀ y, n = Some y → older_of (store c') y = o) ∧
     head c' = (if o is Some _ then head c else n) ∧
     tail c' = (if n is Some _ then tail c else o) ∧
     size c' = (size c - 1)%Z ∧
     find k c' = Undefined ∧
     (k ∉ keys c') ∧
     (∀ l1 l2, linked c (l1 ++ e :: l2) → linked c' (l1 ++ l2))) ∧
  (keymap c !! k = None → remove k c = Some (None, c)).
Proof.
  intros Hwf Hp Hord. pose proof Hwf as (_ & _ & Hk & Hcl & _).
  pose proof (find_ordinary k c Hord Hp) as Hf. split.
  - intros e Ek. cbv zeta. rewrite Ek in Hf. simpl in Hf.
    destruct (Hk _ _ Ek) as [Hkey Hval].
    pose proof (key_of_lt _ _ _ Hkey) as He.
    rewrite (remove_found _ _ _ Hf). exists (unlink e c).2.
    assert (keymap (unlink e c).2 = delete k (keymap c)) as Hkm.
    { rewrite unlink_keymap, Hkey. apply keymap_delete_key, Hord. }
    assert (find k (unlink e c).2 = Undefined) as Hf'.
    { rewrite find_ordinary; [|done|by apply plain_unlink].
      by rewrite Hkm, lookup_delete_eq. }
    assert (k ∉ keys (unlink e c).2) as Hkeys.
    { unfold keys. rewrite elem_of_elements, elem_of_dom, Hkm.
      rewrite lookup_delete_ne by (symmetry; apply Hord).
      rewrite lookup_delete_eq. by intros [? ?]. }
    assert (∀ l1 l2, linked c (l1 ++ e :: l2) → linked (unlink e c).2 (l1 ++ l2))
      as Hlk.
    { intros l1 l2 Hl. apply linked_unlink; [done|]. by rewrite Hp. }
    revert Hkm Hf' Hkeys Hlk. unfold unlink.
    destruct (newer_of (store c) e) as [y|] eqn:En;
      destruct (older_of (store c) e) as [z|] eqn:Eo; fields;
      autorewrite with store; intros Hkm Hf' Hkeys Hlk.
    all: try (assert (y < length (store c)) as Hy by by eapply newer_closed).
    all: try (assert (z < length (store c)) as Hz by by eapply older_closed).
    all: split; [done|]. all: split; [done|]. all: split; [done|].
    all: split; [intros ? [= <-]; autorewrite with store;
                 by rewrite ?decide_True by done|].
    all: split; [intros ? [= <-]; autorewrite with store;
                 by rewrite ?decide_True by done|].
    all: done.
  - intros Ek. rewrite Ek in Hf. by apply remove_absent.
Qed.

Lemma remove_spec_example :
  wf cache_ab ∧ plain_index cache_ab ∧ ordinary "a" ∧
  keymap cache_ab !! "a" = Some 11 ∧
  ∃ c', remove "a" cache_ab = Some (Some 1%Z, c') ∧
        size c' = (size cache_ab - 1)%Z ∧ find "a" c' = Undefined.
Proof.
  split; [apply wf_cache_ab|]. split; [apply plain_cache_ab|].
  split; [apply ordinary_a|]. split; [reflexivity|].
  destruct (remove_spec "a" cache_ab wf_cache_ab plain_cache_ab ordinary_a) as [H _].
  destruct (H 11 eq_refl) as (c' & Hr & _ & _ & _ & _ & _ & _ & Hsz & Hf & _).
  exists c'. split; [exact Hr|]. split; [exact Hsz|exact Hf].
Defined.

(** C7.  [remove] on a key that the cache never held but that
    [Object.prototype] knows.  On the cache of [put("a", 1); put("b", 2)],
    [find("constructor")] is the function that every object inherits (the
    object 0 of the store), although [keys] does not list the key.
    [remove("constructor")] takes it for an entry without neighbours: it
    returns nothing, but it empties [head] and [tail] and decrements [size],
    while both entries are still indexed; the invariant is lost.  On a new
    cache the same call leaves a [size] of -1. *)
Theorem remove_inherited_key :
  find "constructor" cache_ab = Found 0 ∧ ("constructor" ∉ keys cache_ab) ∧
  (∃ c', remove "constructor" cache_ab = Some (None, c') ∧
         c' ≠ cache_ab ∧
         size cache_ab = 2%Z ∧ size c' = 1%Z ∧
         head cache_ab = Some 11 ∧ head c' = None ∧
         tail cache_ab = Some 12 ∧ tail c' = None ∧
         find "a" c' = Found 11 ∧ find "b" c' = Found 12 ∧
         ¬ Inv c') ∧
  (∃ c', remove "constructor" (@construct Z 5) = Some (None, c') ∧
         size c' = (-1)%Z).
Proof.
  split; [reflexivity|]. split.
  { unfold keys. rewrite elem_of_elements, elem_of_dom. by intros [? ?]. }
  split.
  - eexists. split; [reflexivity|]. split; [by intros [=]|].
    do 8 (split; [reflexivity|]).
    intros [l ((_ & Hh & _) & Hsz & _)].
    symmetry in Hh. apply head_None in Hh. subst l. discriminate Hsz.
  - eexists. split; reflexivity.
Qed.

(** Where the index itself yields the last entry, [get] writes nothing. *)
Lemma get_tail {V : Type} (k : string) (r : bool) (c : LRUCache V) (t : addr) :
  find k c = Found t → tail c = Some t →
  get k r c = Some (get_return r (store c) t, c).
Proof. intros Hf Ht. by rewrite (get_found _ _ _ _ Hf), (touch_tail _ _ _ Ht). Qed.

(** C8.  [get] on the key of the last entry, when the index no longer holds
    that key and [Object.prototype] knows it.  After
    [put("constructor", 1); put("constructor", 2); remove("constructor")] on
    a new cache of limit 5, the chain is the first entry alone; it is the
    tail, its key is ["constructor"], and the index holds no key.
    [get("constructor")] finds the inherited function (the object 0 of the
    store) and links it behind the entry: [tail] and the order in which the
    entries are visited change. *)
Theorem get_tail_key_relinks :
  let c0 := (put "constructor" 2%Z (put "constructor" 1%Z (construct 5)).2).2 in
  ∃ c c', remove "constructor" c0 = Some (Some 2%Z, c) ∧
    reachable c ∧
    tail c = Some 11 ∧ key_of (store c) 11 = Some "constructor" ∧
    keys c = [] ∧ find "constructor" c = Found 0 ∧
    get "constructor" false c = Some (GetUndefined, c') ∧
    head c' = head c ∧ size c' = size c ∧
    tail c' = Some 0 ∧
    entries c = Some [11] ∧ entries c' = Some [11; 0] ∧
    entries_desc c = Some [11] ∧ entries_desc c' = Some [0; 11] ∧
    size c' = 1%Z.
Proof.
  cbv zeta.
  set (c0 := (put "constructor" 2%Z (put "constructor" 1%Z (construct 5)).2).2).
  exists (unlink 12 c0).2, (touch 0 false (unlink 12 c0).2).2.
  split; [by vm_compute|]. split.
  { apply (reach_remove "constructor" c0 (Some 2%Z)); [|by vm_compute].
    apply reach_put, reach_put, reach_construct. }
  by vm_compute.
Qed.




(** C10 as stated: construction with a negative capacity is rejected.
    [new LRUCache(-1)] returns a cache. *)
Lemma new_LRUCache_negative_counterexample :
  ¬ (∀ lim : Z, (lim < 0)%Z → ∃ msg, @new_LRUCache Z lim = Throw msg).
Proof.
  intros H. destruct (H (-1)%Z) as [msg Hmsg]; [lia|]. discriminate Hmsg.
Qed.

(** C10, amended.  Construction never fails: for every capacity argument,
    negative ones included, it returns an empty cache whose [limit] is the
    argument as given.  With a negative limit no [put] ever finds
    [size = limit]: after the n-th [put] the size is n. *)
Theorem new_LRUCache_accepts {V : Type} (lim : Z) :
  @new_LRUCache V lim = Normal (construct lim) ∧
  limit (@construct V lim) = lim ∧ size (@construct V lim) = 0%Z ∧
  keymap (@construct V lim) = ∅ ∧
  head (@construct V lim) = None ∧ tail (@construct V lim) = None ∧
  ((lim < 0)%Z → ∀ kvs : list (string * V),
     size <$> put_trace kvs (construct lim) = Z.of_nat <$> seq 1 (length kvs)).
Proof.
  do 6 (split; [done|]). intros Hlim kvs.
  rewrite put_trace_never_full by (simpl; lia).
  apply list_fmap_ext. intros i x _. simpl. lia.
Qed.

Lemma new_LRUCache_accepts_witness :
  (-1 < 0)%Z ∧
  size <$> put_trace [("a", 1%Z); ("b", 2%Z)] (construct (-1)) = [1%Z; 2%Z].
Proof.
  split; [lia|].
  destruct (new_LRUCache_accepts (V:=Z) (-1)) as (_ & _ & _ & _ & _ & _ & H).
  apply (H ltac:(lia) [("a", 1%Z); ("b", 2%Z)]).
Defined.

(** A reachable state with a head and no tail: with a limit of -2, two
    calls of [put], three of [remove("constructor")] and one of
    [remove("a")] leave such a cache, whose [size] is its [limit]; the next
    [put] overwrites the head and evicts its own entry. *)
Lemma put_head_without_tail :
  let c2 := (put "b" 2%Z (put "a" 1%Z (construct (-2))).2).2 in
  let r c := default c (snd <$> remove "constructor" c) in
  let c := default c2 (snd <$> remove "a" (r (r (r c2)))) in
  reachable c ∧ head c = Some 12 ∧ tail c = None ∧ size c = limit c ∧
  (put "c" 3%Z c).1 = Some 13.
Proof.
  cbv zeta. split; [|by vm_compute].
  set (c2 := (put "b" 2%Z (put "a" 1%Z (construct (-2))).2).2).
  set (c3 := default c2 (snd <$> remove "constructor" c2)).
  set (c4 := default c3 (snd <$> remove "constructor" c3)).
  set (c5 := default c4 (snd <$> remove "constructor" c4)).
  apply (reach_remove "a" c5 (Some 1%Z)); [|by vm_compute].
  apply (reach_remove "constructor" c4 None); [|by vm_compute].
  apply (reach_remove "constructor" c3 None); [|by vm_compute].
  apply (reach_remove "constructor" c2 None); [|by vm_compute].
  apply reach_put, reach_put, reach_construct.
Qed.

(** * Further properties of the methods *)

(** ** More on what each method leaves alone *)

Section Frames.
Context {V : Type}.

Implicit Types (st : list (Entry V)) (c : LRUCache V) (a b e h t : addr).
Implicit Types (l : list addr) (p n o x : option addr).

Lemma key_value_alt st a :
  key_value st a =
  if decide (a < length st) then Some (key_of st a, value_of st a) else None.
Proof.
  unfold key_value, key_of, value_of. case_decide as E.
  - apply lookup_lt_is_Some_2 in E as [x ->]. done.
  - rewrite lookup_ge_None_2; [done|lia].
Qed.

Lemma key_value_is_Some st a : a < length st → is_Some (key_value st a).
Proof.
  intros H. apply lookup_lt_is_Some_2 in H as [x Hx].
  unfold key_value. rewrite Hx. by eexists.
Qed.

Lemma touch_key e r c a : key_of (store (touch e r c).2) a = key_of (store c) a.
Proof.
  unfold touch. case_decide; [done|].
  destruct (newer_of (store c) e) as [y|];
    (match goal with |- context [older_of ?s e] =>
       destruct (older_of s e) as [z|] end);
    destruct (tail c) as [t|]; fields; by autorewrite with store.
Qed.

Lemma touch_value e r c a : value_of (store (touch e r c).2) a = value_of (store c) a.
Proof.
  unfold touch. case_decide; [done|].
  destruct (newer_of (store c) e) as [y|];
    (match goal with |- context [older_of ?s e] =>
       destruct (older_of s e) as [z|] end);
    destruct (tail c) as [t|]; fields; by autorewrite with store.
Qed.

Lemma touch_length e r c : length (store (touch e r c).2) = length (store c).
Proof.
  unfold touch. case_decide; [done|].
  destruct (newer_of (store c) e) as [y|];
    (match goal with |- context [older_of ?s e] =>
       destruct (older_of s e) as [z|] end);
    destruct (tail c) as [t|]; fields; by autorewrite with store.
Qed.

Lemma touch_key_value e r c a :
  key_value (store (touch e r c).2) a = key_value (store c) a.
Proof. by rewrite !key_value_alt, touch_key, touch_value, touch_length. Qed.

Lemma touch_result e r c : (touch e r c).1 = get_return r (store c) e.
Proof.
  unfold touch. case_decide; [done|].
  destruct (newer_of (store c) e) as [y|];
    (match goal with |- context [older_of ?s e] =>
       destruct (older_of s e) as [z|] end);
    destruct (tail c) as [t|]; fields;
    unfold get_return; by autorewrite with store.
Qed.

Lemma touch_tail_after e r c : tail (touch e r c).2 = Some e.
Proof. unfold touch. case_decide; [done|]. by repeat case_match. Qed.

Lemma unlink_limit e c : limit (unlink e c).2 = limit c.
Proof. unfold unlink. by destruct (newer_of (store c) e), (older_of (store c) e). Qed.

Lemma unlink_size e c : size (unlink e c).2 = (size c - 1)%Z.
Proof. unfold unlink. by destruct (newer_of (store c) e), (older_of (store c) e). Qed.

Lemma unlink_key e c a : key_of (store (unlink e c).2) a = key_of (store c) a.
Proof.
  unfold unlink. destruct (newer_of (store c) e), (older_of (store c) e);
    fields; by autorewrite with store.
Qed.

Lemma unlink_value e c a : value_of (store (unlink e c).2) a = value_of (store c) a.
Proof.
  unfold unlink. destruct (newer_of (store c) e), (older_of (store c) e);
    fields; by autorewrite with store.
Qed.

Lemma unlink_length e c : length (store (unlink e c).2) = length (store c).
Proof.
  unfold unlink. destruct (newer_of (store c) e), (older_of (store c) e);
    fields; by autorewrite with store.
Qed.

Lemma unlink_result e c : (unlink e c).1 = value_of (store c) e.
Proof.
  unfold unlink. destruct (newer_of (store c) e), (older_of (store c) e);
    fields; by autorewrite with store.
Qed.

(** The counters after the methods that have a result. *)
Lemma get_counters k r c res c' :
  get k r c = Some (res, c') → size c' = size c ∧ limit c' = limit c.
Proof.
  rewrite find_get. destruct (find k c) as [|e|]; [| |done].
  - by intros [= _ <-].
  - intros [= H]. apply (f_equal snd) in H. simpl in H. subst c'.
    by rewrite touch_size, touch_limit.
Qed.

Lemma remove_counters k c old c' :
  remove k c = Some (old, c') →
  (size c' = size c ∨ size c' = (size c - 1)%Z) ∧ limit c' = limit c.
Proof.
  rewrite find_remove. destruct (find k c) as [|e|]; [| |done].
  - intros [= _ <-]. split; [by left|done].
  - intros [= H]. apply (f_equal snd) in H. simpl in H. subst c'.
    rewrite unlink_size, unlink_limit. split; [by right|done].
Qed.

Lemma set_counters k (v : V) c old c' :
  set k v c = Some (old, c') →
  (size c' = size c ∨ size c' = size (put k v c).2) ∧ limit c' = limit c.
Proof.
  destruct (find k c) as [|e|] eqn:Ek.
  - rewrite (set_absent_result _ _ _ Ek). intros [= _ <-].
    rewrite put_limit. split; [by right|done].
  - rewrite (set_present _ _ _ _ Ek). cbv zeta. intros [= _ <-]. fields.
    rewrite touch_size, touch_limit. split; [by left|done].
  - by rewrite (set_foreign _ _ _ Ek).
Qed.

End Frames.

(** ** In every reachable state *)

(** X1. Whatever methods are called, in whatever order, on a cache built
    with a non-negative limit, [size] never exceeds [limit]. *)
Theorem reachable_size_within_limit {V : Type} (c : LRUCache V) :
  reachable c → (0 ≤ limit c)%Z → (size c ≤ limit c)%Z.
Proof.
  induction 1 as [lim|k v c _ IH|c _ IH|k r c res c' _ IH Hg
                  |k v c old c' _ IH Hs|k c old c' _ IH Hr|c _ IH].
  - simpl. lia.
  - rewrite put_limit, put_size. intros Hl. specialize (IH Hl).
    destruct (Z.eqb_spec (size c) (limit c)); lia.
  - by rewrite shift_limit, shift_size.
  - destruct (get_counters _ _ _ _ _ Hg) as [-> ->]. exact IH.
  - destruct (set_counters _ _ _ _ _ Hs) as [Hsz ->]. intros Hl.
    specialize (IH Hl). rewrite put_size in Hsz.
    destruct (Z.eqb_spec (size c) (limit c)); lia.
  - destruct (remove_counters _ _ _ _ Hr) as [Hsz ->]. intros Hl.
    specialize (IH Hl). lia.
  - simpl. lia.
Qed.

Lemma reachable_size_within_limit_witness :
  reachable cache_ab ∧ (0 ≤ limit cache_ab)%Z ∧ (size cache_ab ≤ limit cache_ab)%Z.
Proof.
  assert (0 ≤ limit cache_ab)%Z as Hl by (vm_compute; discriminate).
  split; [apply reachable_cache_ab|]. split; [exact Hl|].
  apply (reachable_size_within_limit cache_ab reachable_cache_ab Hl).
Defined.

(** ** [removeAll], [find] and [get] *)

(** X4. [removeAll] empties the cache whatever state it was in, a state in
    which the invariant is lost or the index has a prototype entry included:
    afterwards the invariant holds, the index has no prototype entry, [size]
    is 0, [limit] is what it was, there is no key, no head and no tail, the
    loops visit nothing and the rendering is the empty string.  A lookup
    yields what [Object.prototype] holds: nothing for an ordinary key, on
    which [get] then returns nothing and leaves the cache as it is. *)
Theorem removeAll_spec {V : Type} (c : LRUCache V) :
  let c' := removeAll c in
  Inv c' ∧ linked c' [] ∧ plain_index c' ∧
  size c' = 0%Z ∧ limit c' = limit c ∧
  keys c' = [] ∧ head c' = None ∧ tail c' = None ∧
  (∀ k, find k c' =
        if decide (k = "__proto__") then Foreign
        else from_option Found Undefined (inherited k)) ∧
  (∀ k r, ordinary k →
          find k c' = Undefined ∧ get k r c' = Some (GetUndefined, c')) ∧
  (∀ ctx desc, forEach ctx desc c' = Some []) ∧
  (∀ show, toString show c' = Some "").
Proof.
  cbv zeta. split; [apply Inv_removeAll|]. split; [apply linked_removeAll|].
  split; [apply plain_removeAll|]. do 2 (split; [done|]).
  split; [unfold keys; simpl; by rewrite delete_empty, dom_empty_L, elements_empty|].
  do 2 (split; [done|]).
  split.
  { intros k. unfold find, keymap_get. simpl. rewrite !lookup_empty.
    case_decide; [done|]. by destruct (inherited k). }
  split.
  { intros k r Hk.
    assert (find k (removeAll c) = Undefined) as Hf.
    { rewrite find_ordinary; [|done|apply plain_removeAll].
      simpl. by rewrite lookup_empty. }
    split; [done|]. by apply get_absent. }
  split.
  - intros ctx desc. unfold forEach, entries, entries_desc. simpl.
    rewrite !walk_end. by destruct ctx, desc.
  - intros show. unfold toString, entries. simpl. by rewrite walk_end.
Qed.

(** X6. [get] and [find] agree.  Where [find key] is absent, [get key] is
    absent and leaves the cache as it is.  Where [find key] returns an
    object, [get key true] returns that object and [get key false] its value
    (nothing, if it has none; an entry that the index itself holds under
    [key] has one).  In both cases [get] changes neither the index, nor
    [size], nor [limit], nor the key or value of any object, and allocates
    nothing.  Where [find key] is not an object of the store, [get] has no
    result in the embedding. *)
Theorem get_find {V : Type} (k : string) (c : LRUCache V) :
  wf c →
  (find k c = Undefined → ∀ r, get k r c = Some (GetUndefined, c)) ∧
  (find k c = Foreign → ∀ r, get k r c = None) ∧
  (∀ e, find k c = Found e →
     e < length (store c) ∧
     (keymap c !! k = Some e →
      ∃ v, value_of (store c) e = Some v ∧
           get_return false (store c) e = GetValue v) ∧
     ∀ r, ∃ c', get k r c = Some (get_return r (store c) e, c') ∧
       get_return true (store c) e = GetEntry e ∧
       get_return false (store c) e =
         from_option GetValue GetUndefined (value_of (store c) e) ∧
       keymap c' = keymap c ∧
       size c' = size c ∧ limit c' = limit c ∧
       length (store c') = length (store c) ∧
       ∀ a, key_value (store c') a = key_value (store c) a).
Proof.
  intros Hwf. split; [intros Hf r; by apply get_absent|].
  split; [intros Hf r; by apply get_foreign|].
  intros e He. split; [by eapply wf_keymap_get|].
  split.
  { intros Hown. destruct Hwf as (_ & _ & Hk & _).
    destruct (Hk _ _ Hown) as [_ [v Hv]]. exists v. split; [done|].
    unfold get_return. by rewrite Hv. }
  intros r.
  exists (touch e r c).2. rewrite (get_found _ _ _ _ He).
  split; [by rewrite <- touch_result; destruct (touch e r c)|].
  split; [done|].
  split; [unfold get_return; by destruct (value_of (store c) e)|].
  rewrite touch_keymap, touch_size, touch_limit, touch_length.
  do 4 (split; [done|]). intros a. apply touch_key_value.
Qed.

Lemma get_find_witness :
  wf cache_ab ∧ find "a" cache_ab = Found 11 ∧
  ∃ c', get "a" true cache_ab = Some (GetEntry 11, c') ∧
        size c' = size cache_ab.
Proof.
  split; [apply wf_cache_ab|]. split; [reflexivity|].
  destruct (get_find "a" cache_ab wf_cache_ab) as (_ & _ & H).
  destruct (H 11 eq_refl) as (_ & _ & H').
  destruct (H' true) as (c' & Hg & _ & _ & _ & Hsz & _).
  exists c'. split; [exact Hg|exact Hsz].
Defined.

(** X7. [get] on a key for which the index yields an entry of the chain,
    under the invariant: the entry found moves behind the last entry, the
    others keep their order, and the loop from [head] visits them in the new
    order; the result is the entry, or its value, which [get] does not
    change. *)
Theorem get_touch {V : Type} (k : string) (r : bool) (c : LRUCache V)
    (l1 l2 : list addr) (e : addr) :
  linked c (l1 ++ e :: l2) → find k c = Found e →
  ∃ c', get k r c = Some (get_return r (store c) e, c') ∧
  linked c' (l1 ++ l2 ++ [e]) ∧
  entries c' = Some (l1 ++ l2 ++ [e]) ∧
  entries_desc c' = Some (e :: reverse l2 ++ reverse l1) ∧
  tail c' = Some e ∧
  get_return r (store c') e = get_return r (store c) e.
Proof.
  intros Hl Hk. exists (touch e r c).2. rewrite (get_found _ _ _ _ Hk).
  pose proof (linked_touch r c l1 e l2 Hl) as Hl'.
  split; [by rewrite <- touch_result; destruct (touch e r c)|].
  split; [done|]. split; [by apply linked_entries|].
  split.
  { rewrite (linked_entries_desc _ _ Hl').
    by rewrite !reverse_app, reverse_singleton. }
  split; [apply touch_tail_after|].
  unfold get_return. by rewrite touch_value.
Qed.

Lemma get_touch_witness :
  linked cache_ab ([] ++ 11 :: [12]) ∧ find "a" cache_ab = Found 11 ∧
  ∃ c', get "a" false cache_ab = Some (GetValue 1%Z, c') ∧
        entries c' = Some [12; 11].
Proof.
  split; [apply linked_cache_ab|]. split; [reflexivity|].
  destruct (get_touch "a" false cache_ab [] [12] 11 linked_cache_ab eq_refl)
    as (c' & Hg & _ & He & _).
  exists c'. split; [exact Hg|exact He].
Defined.

(** ** [set], and [put] followed by [remove] *)

(** X8. [set] on a key for which the index yields an entry of the chain,
    under the invariant: it returns the value the entry had, writes the new
    value into the same entry (nothing is allocated, no other value and no
    key changes), leaves the index, [size] and [limit] alone, and moves the
    entry behind the last one, as [get] does. *)
Theorem set_present_spec {V : Type} (k : string) (v : V) (c : LRUCache V)
    (l1 l2 : list addr) (e : addr) :
  linked c (l1 ++ e :: l2) → find k c = Found e →
  ∃ c', set k v c = Some (value_of (store c) e, c') ∧
  (wf c → keymap c !! k = Some e → is_Some (value_of (store c) e)) ∧
  value_of (store c') e = Some v ∧
  (∀ a, a ≠ e → value_of (store c') a = value_of (store c) a) ∧
  (∀ a, key_of (store c') a = key_of (store c) a) ∧
  length (store c') = length (store c) ∧
  keymap c' = keymap c ∧ (keymap c !! k = Some e → find k c' = Found e) ∧
  size c' = size c ∧ limit c' = limit c ∧
  linked c' (l1 ++ l2 ++ [e]) ∧ tail c' = Some e.
Proof.
  intros Hl Hk.
  assert (e < length (store c)) as He.
  { apply (linked_lt _ _ _ Hl). apply elem_of_app. right. by left. }
  pose proof (linked_touch true c l1 e l2 Hl) as Hl'.
  rewrite (set_present k v c e Hk). cbv zeta. rewrite touch_value.
  eexists. split; [reflexivity|]. fields.
  rewrite touch_keymap, touch_size, touch_limit.
  split. { intros (_ & _ & Hwk & _) Hown. by apply (Hwk k e). }
  split. { rewrite value_set_value, touch_length. by rewrite !decide_True. }
  split. { intros a Ha. rewrite value_set_value, decide_False by done. apply touch_value. }
  split. { intros a. rewrite key_set_value. apply touch_key. }
  split. { rewrite length_set_value. apply touch_length. }
  split; [done|]. split; [intros Hown; by apply keymap_get_own|].
  do 2 (split; [done|]).
  split.
  { eapply linked_fields; [..|exact (linked_set_value _ _ e v Hl')]; fields;
      by rewrite ?touch_keymap, ?touch_size. }
  apply touch_tail_after.
Qed.

Lemma set_present_spec_witness :
  linked cache_ab ([] ++ 11 :: [12]) ∧ find "a" cache_ab = Found 11 ∧
  ∃ c', set "a" 7%Z cache_ab = Some (Some 1%Z, c') ∧
        value_of (store c') 11 = Some 7%Z.
Proof.
  split; [apply linked_cache_ab|]. split; [reflexivity|].
  destruct (set_present_spec "a" 7%Z cache_ab [] [12] 11 linked_cache_ab eq_refl)
    as (c' & Hr & _ & Hv & _).
  exists c'. split; [exact Hr|exact Hv].
Defined.

Lemma find_undefined {V : Type} (k : string) (c : LRUCache V) :
  find k c = Undefined → keymap c !! k = None ∧ k ≠ "__proto__".
Proof.
  unfold find, keymap_get. destruct (keymap c !! k); [done|].
  by case_decide.
Qed.

Lemma linked_put_room {V : Type} (k : string) (v : V) (c : LRUCache V)
    (l : list addr) :
  linked c l → size c ≠ limit c →
  (put k v c).1 = None ∧
  (put k v c).2 = with_size (size c + 1) (put_linked k v c) ∧
  linked (put k v c).2 (l ++ [length (store c)]).
Proof.
  intros Hl Hsz. pose proof Hsz as Hsz'. apply Z.eqb_neq in Hsz'.
  split; [by rewrite put_result, Hsz'|].
  unfold put. cbv zeta. rewrite put_linked_size, put_linked_limit, Hsz'.
  split; [unfold with_size; simpl; by rewrite put_linked_limit|].
  pose proof Hl as (Hc & Hs & Hi).
  split; [exact (chain_put_linked k v c l Hc)|]. split.
  - fields. rewrite Hs, length_app. cbn [length]. lia.
  - apply (indexed_put_linked k v c l Hi). intros a Ha.
    by apply (linked_lt _ _ _ Hl).
Qed.

(** X9. [put] of a key for which the index yields nothing, on a cache that
    is not full, followed by [remove] of that key: [remove] returns the
    value that was put, and the cache is back to the chain, the index, the
    [size], the [head] and the [tail] it had, with every entry it had
    unchanged. *)
Theorem put_remove {V : Type} (k : string) (v : V) (c : LRUCache V)
    (l : list addr) :
  linked c l → find k c = Undefined → size c ≠ limit c →
  ∃ c', remove k (put k v c).2 = Some (Some v, c') ∧
  linked c' l ∧ keymap c' = keymap c ∧
  size c' = size c ∧ limit c' = limit c ∧
  head c' = head c ∧ tail c' = tail c ∧
  ∀ a, a ∈ l → key_value (store c') a = key_value (store c) a.
Proof.
  intros Hl [Hk Hnp]%find_undefined Hsz.
  destruct (linked_put_room k v c l Hl Hsz) as (_ & Hp & Hl1).
  set (new := length (store c)) in *.
  assert (keymap (put k v c).2 = <[k:=new]> (keymap c)) as Hkm1.
  { rewrite Hp. cbn [with_size keymap]. apply put_linked_keymap. }
  assert (find k (put k v c).2 = Found new) as Hf1.
  { apply keymap_get_own. rewrite Hkm1. apply lookup_insert_eq. }
  exists (unlink new (put k v c).2).2. rewrite (remove_found _ _ _ Hf1).
  assert (linked (unlink new (put k v c).2).2 l) as Hl2.
  { rewrite <- (app_nil_r l). apply linked_unlink; [done|].
    rewrite Hkm1, lookup_insert_ne by done. intros Hpr.
    destruct (proj2 (proj2 Hl) _ _ Hpr) as [Hin _].
    apply (linked_lt _ _ _ Hl) in Hin. unfold new in Hin. lia. }
  split.
  { rewrite (surjective_pairing (unlink new (put k v c).2)) at 1.
    rewrite unlink_result, put_value. by rewrite decide_True. }
  split; [done|]. split.
  { rewrite unlink_keymap, put_key, decide_True by done.
    rewrite keymap_delete_key by done. rewrite Hkm1, delete_insert_eq.
    by apply delete_id. }
  split. { rewrite unlink_size, put_size.
           destruct (Z.eqb_spec (size c) (limit c)); [done|lia]. }
  split; [by rewrite unlink_limit, put_limit|].
  pose proof Hl as ((_ & Hh & Ht & _) & _).
  destruct Hl2 as ((_ & Hh2 & Ht2 & Hs2) & _).
  split; [by rewrite Hh, Hh2|]. split; [by rewrite Ht, Ht2|].
  intros a Ha. rewrite !key_value_alt, unlink_key, unlink_value, unlink_length.
  rewrite put_key, put_value, put_length.
  assert (a < length (store c)) as Hlt by by apply (linked_lt _ _ _ Hl).
  rewrite !(decide_False (P := a = length (store c))) by lia.
  rewrite !decide_True by lia. done.
Qed.

Lemma put_remove_witness :
  linked cache_a [11] ∧ find "b" cache_a = Undefined ∧
  size cache_a ≠ limit cache_a ∧
  ∃ c', remove "b" (put "b" 2%Z cache_a).2 = Some (Some 2%Z, c') ∧
        linked c' [11].
Proof.
  assert (size cache_a ≠ limit cache_a) as Hsz by (vm_compute; discriminate).
  split; [apply linked_cache_a|]. split; [reflexivity|]. split; [exact Hsz|].
  destruct (put_remove "b" 2%Z cache_a [11] linked_cache_a eq_refl Hsz)
    as (c' & Hr & Hl & _).
  exists c'. split; [exact Hr|exact Hl].
Defined.

(** ** Recency *)

(** X10. Under the invariant, on a chain of two entries or more, the entry
    that [get] has just found is not the one that the next [put] evicts,
    whatever key is put: it is still in the chain afterwards. *)
Theorem get_protects {V : Type} (k k' : string) (r : bool) (v : V)
    (c : LRUCache V) (l : list addr) (e : addr) :
  linked c l → find k c = Found e → e ∈ l → 2 ≤ length l →
  ∃ res c1, get k r c = Some (res, c1) ∧
  (put k' v c1).1 ≠ Some e ∧
  ∃ l', entries (put k' v c1).2 = Some l' ∧ e ∈ l'.
Proof.
  intros Hl Hk Hin Hlen.
  apply list_elem_of_split in Hin as (l1 & l2 & ->).
  exists (touch e r c).1, (touch e r c).2. rewrite (get_found _ _ _ _ Hk).
  split; [by destruct (touch e r c)|].
  pose proof (linked_touch r c l1 e l2 Hl) as Hl1.
  rewrite app_assoc in Hl1.
  destruct (l1 ++ l2) as [|x m] eqn:Em.
  { rewrite length_app in Hlen. apply (f_equal length) in Em.
    rewrite length_app in Em. simpl in *. lia. }
  pose proof Hl1 as (Hc1 & _). pose proof Hc1 as (Hnd & Hh & Ht & _).
  simpl in Hh, Hnd.
  apply NoDup_cons in Hnd as [Hx _].
  assert (x ≠ e) as Hxe.
  { intros ->. apply Hx. apply elem_of_app. right. by left. }
  assert ((x :: m) ++ [e] ≠ []) as Hne by done.
  pose proof (chain_put k' v _ _ Hc1 (or_introl Hne)) as Hc2. cbv zeta in Hc2.
  split.
  - rewrite put_result. case_match; [|done].
    rewrite put_linked_head, Ht, last_snoc, Hh. congruence.
  - eexists. split; [by apply chain_entries|].
    case_match; cbn [drop app]; rewrite ?drop_0; set_solver.
Qed.

Lemma get_protects_witness :
  linked cache_two [11; 12] ∧ find "a" cache_two = Found 11 ∧
  11 ∈ [11; 12] ∧ 2 ≤ 2 ∧
  size cache_two = limit cache_two ∧
  ∃ res c1, get "a" false cache_two = Some (res, c1) ∧
    (put "c" 3%Z c1).1 ≠ Some 11 ∧
    ∃ l', entries (put "c" 3%Z c1).2 = Some l' ∧ 11 ∈ l'.
Proof.
  assert (11 ∈ [11; 12]) as Hin by by left.
  split; [apply linked_cache_two|]. split; [reflexivity|].
  split; [exact Hin|]. split; [lia|]. split; [reflexivity|].
  apply (get_protects "a" "c" false 3%Z cache_two [11; 12] 11 linked_cache_two
           eq_refl Hin (le_n 2)).
Defined.

(** On the full cache of two entries, [put] after [get "a"] does evict, and
    the entry evicted is the other one. *)
Lemma get_protects_example :
  ∃ c1, get "a" false cache_two = Some (GetValue 1%Z, c1) ∧
        (put "c" 3%Z c1).1 = Some 12 ∧
        entries (put "c" 3%Z c1).2 = Some [11; 13].
Proof. eexists. split; [reflexivity|]. by vm_compute. Qed.

(** ** [forEach] and [toString] *)

Lemma mapM_reverse {A B : Type} (f : A → option B) (l : list A) (k : list B) :
  mapM f l = Some k → mapM f (reverse l) = Some (reverse k).
Proof. rewrite !mapM_Some. apply Forall2_reverse. Qed.

Lemma mapM_snoc {A B : Type} (f : A → option B) (l : list A) (k : list B) x y :
  mapM f l = Some k → f x = Some y → mapM f (l ++ [x]) = Some (k ++ [y]).
Proof.
  rewrite !mapM_Some. intros H Hx. apply Forall2_app; [done|]. by constructor.
Qed.

Lemma append_assoc (s1 s2 s3 : string) :
  s1 +:+ s2 +:+ s3 = (s1 +:+ s2) +:+ s3.
Proof.
  induction s1 as [|a s1 IH]; [done|].
  change (String a (s1 +:+ s2 +:+ s3) = String a ((s1 +:+ s2) +:+ s3)).
  by rewrite IH.
Qed.

Lemma mapM_ext_in {A B : Type} (f g : A → option B) (l : list A) :
  (∀ x, x ∈ l → f x = g x) → mapM f l = mapM g l.
Proof.
  induction l as [|x l IH]; intros H; [done|]. simpl.
  rewrite (H x) by by left. rewrite IH; [done|]. intros y Hy. apply H. by right.
Qed.

(** The separator [" < "] stands between two entries, never at an end. *)
Lemma render_snoc {V : Type} (show : V → string) kvs
    (kv : option string * option V) :
  kvs ≠ [] →
  render show (kvs ++ [kv]) = render show kvs +:+ " < " +:+ render_entry show kv.
Proof.
  induction kvs as [|kv0 kvs IH]; [done|]. intros _.
  destruct kvs as [|kv1 kvs]; [done|].
  change (render show ((kv0 :: kv1 :: kvs) ++ [kv]))
    with (render_entry show kv0 +:+ " < " +:+
          render show ((kv1 :: kvs) ++ [kv])).
  change (render show (kv0 :: kv1 :: kvs))
    with (render_entry show kv0 +:+ " < " +:+ render show (kv1 :: kvs)).
  rewrite IH by done. by rewrite <- !append_assoc.
Qed.

Lemma linked_toString_render {V : Type} (show : V → string) (c : LRUCache V)
    (l : list addr) :
  linked c l →
  ∃ kvs, mapM (key_value (store c)) l = Some kvs ∧
         toString show c = Some (render show kvs).
Proof.
  intros Hl. destruct (linked_key_value _ _ Hl) as [kvs Hk].
  exists kvs. split; [done|].
  unfold toString. rewrite (linked_entries _ _ Hl). simpl. by rewrite Hk.
Qed.

(** X11. Under the invariant, [forEach] calls its function on the key and
    the value of every entry of the chain, [size] calls in all: from [head]
    to [tail] by default, and in the reverse order when [desc] is set or when
    the context argument is [true].  [toString] renders the same pairs, from
    [head] to [tail]. *)
Theorem forEach_order {V : Type} (c : LRUCache V) (l : list addr) :
  linked c l →
  ∃ kvs,
    mapM (key_value (store c)) l = Some kvs ∧
    Z.of_nat (length kvs) = size c ∧
    forEach CtxObject false c = Some kvs ∧
    forEach CtxOther false c = Some kvs ∧
    (∀ ctx, forEach ctx true c = Some (reverse kvs)) ∧
    (∀ desc, forEach CtxTrue desc c = Some (reverse kvs)) ∧
    (∀ show, toString show c = Some (render show kvs)).
Proof.
  intros Hl. destruct (linked_key_value _ _ Hl) as [kvs Hk].
  pose proof (mapM_reverse _ _ _ Hk) as Hkr.
  exists kvs. split; [done|]. split.
  { apply length_mapM in Hk. rewrite <- Hk. by destruct Hl as (_ & -> & _). }
  unfold forEach, toString.
  rewrite (linked_entries _ _ Hl), (linked_entries_desc _ _ Hl). simpl.
  rewrite Hk, Hkr. do 2 (split; [done|]).
  split; [by intros []|]. split; [by intros []|done].
Qed.

Lemma forEach_order_witness :
  linked cache_ab [11; 12] ∧
  forEach CtxOther false cache_ab =
    Some [(Some "a", Some 1%Z); (Some "b", Some 2%Z)] ∧
  forEach CtxTrue false cache_ab =
    Some [(Some "b", Some 2%Z); (Some "a", Some 1%Z)].
Proof.
  split; [apply linked_cache_ab|].
  destruct (forEach_order cache_ab [11; 12] linked_cache_ab)
    as (kvs & Hk & _ & _ & Ha & _ & Hd & _).
  injection Hk as <-. split; [exact Ha|exact (Hd false)].
Defined.

(** X12. Under the invariant, a [put] on a cache that is not full adds
    ["key:value"] at the end of the rendering, after the separator [" < "]
    unless the cache was empty. *)
Theorem toString_put {V : Type} (show : V → string) (k : string) (v : V)
    (c : LRUCache V) (l : list addr) (s : string) :
  linked c l → size c ≠ limit c → toString show c = Some s →
  toString show (put k v c).2 =
  Some (if l is [] then k +:+ ":" +:+ show v
        else s +:+ " < " +:+ k +:+ ":" +:+ show v).
Proof.
  intros Hl Hsz Hs.
  destruct (linked_toString_render show c l Hl) as (kvs & Hk & Ht).
  rewrite Ht in Hs. injection Hs as <-.
  destruct (linked_put_room k v c l Hl Hsz) as (_ & _ & Hl').
  assert (mapM (key_value (store (put k v c).2)) (l ++ [length (store c)]) =
          Some (kvs ++ [(Some k, Some v)])) as Hk'.
  { apply mapM_snoc.
    - rewrite <- Hk. apply mapM_ext_in. intros a Ha.
      apply (linked_lt _ _ _ Hl) in Ha.
      rewrite !key_value_alt, put_key, put_value, put_length.
      rewrite !(decide_False (P := a = length (store c))) by lia.
      by rewrite !decide_True by lia.
    - rewrite key_value_alt, put_key, put_value, put_length.
      by rewrite !decide_True by lia. }
  unfold toString. rewrite (linked_entries _ _ Hl'). simpl. rewrite Hk'. simpl.
  f_equal. destruct l as [|a l'].
  - by injection Hk as <-.
  - apply (render_snoc show kvs (Some k, Some v)).
    intros ->. apply length_mapM in Hk. done.
Qed.

Lemma toString_put_witness :
  linked cache_a [11] ∧ size cache_a ≠ limit cache_a ∧
  toString (λ _, "v") cache_a = Some "a:v" ∧
  toString (λ _, "v") (put "b" 2%Z cache_a).2 = Some "a:v < b:v".
Proof.
  assert (size cache_a ≠ limit cache_a) as Hsz by (vm_compute; discriminate).
  split; [apply linked_cache_a|]. split; [exact Hsz|]. split; [reflexivity|].
  apply (toString_put (λ _, "v") "b" 2%Z cache_a [11] "a:v" linked_cache_a Hsz
           eq_refl).
Defined.

(** ** A cache used through [set], [get] and [remove] *)

Section TidyLemmas.
Context {V : Type}.

Implicit Types (st : list (Entry V)) (c : LRUCache V) (a b e h t : addr).
Implicit Types (l : list addr).

Lemma tidy_construct lim : tidy (@construct V lim) [].
Proof. split; [apply linked_construct|]. by intros a Ha%elem_of_nil. Qed.

Lemma tidy_removeAll c : tidy (removeAll c) [].
Proof. split; [apply linked_removeAll|]. by intros a Ha%elem_of_nil. Qed.

Lemma tidy_touch e r c l :
  tidy c l → e ∈ l → ∃ l', tidy (touch e r c).2 l' ∧ l' ≡ₚ l.
Proof.
  intros [Hl Hall] (l1 & l2 & ->)%list_elem_of_split.
  assert (l1 ++ l2 ++ [e] ≡ₚ l1 ++ e :: l2) as Hp.
  { by rewrite <- Permutation_cons_append. }
  exists (l1 ++ l2 ++ [e]). split; [|done]. split; [by apply linked_touch|].
  intros a Ha. rewrite touch_keymap. apply Hall. by rewrite <- Hp.
Qed.

Lemma tidy_unlink e c l :
  tidy c l → e ∈ l → keymap c !! "__proto__" ≠ Some e →
  ∃ l', tidy (unlink e c).2 l'.
Proof.
  intros [Hl Hall] Hin Hp. pose proof Hl as ((Hnd & _) & _ & Hi).
  destruct (Hall e Hin) as [ke Hke]. destruct (Hi _ _ Hke) as [_ Hkey].
  apply list_elem_of_split in Hin as (l1 & l2 & ->).
  exists (l1 ++ l2). split; [by apply linked_unlink|].
  intros a Ha.
  assert (a ≠ e) as Hae.
  { intros ->. apply NoDup_app in Hnd as (_ & Hd & [He _]%NoDup_cons).
    apply elem_of_app in Ha as [Ha|Ha]; [|done].
    eapply Hd; [exact Ha|by left]. }
  destruct (Hall a) as [k' Hk'].
  { apply elem_of_app in Ha as [?|?]; apply elem_of_app; [by left|].
    right. by right. }
  exists k'. rewrite unlink_keymap, Hkey, keymap_delete_ne; [done|].
  simpl. intros ->. congruence.
Qed.

Lemma tidy_set_value c l e (v : V) :
  tidy c l →
  tidy (mkCache (limit c) (size c) (keymap c) (head c) (tail c)
                (set_value e v (store c))) l.
Proof. intros [Hl Hall]. split; [by apply linked_set_value|done]. Qed.

(** [put] of a key that is not indexed keeps the cache tidy, and indexes the
    key. *)
Lemma tidy_put k (v : V) c l :
  tidy c l → plain_index c → k ≠ "__proto__" →
  keymap c !! k = None → limit c ≠ 0%Z →
  let l' := if (size c =? limit c)%Z then drop 1 l ++ [length (store c)]
            else l ++ [length (store c)] in
  tidy (put k v c).2 l' ∧
  keymap (put k v c).2 !! k = Some (length (store c)) ∧
  (∀ k', k' ≠ k → hd_error l ≫= key_of (store c) ≠ Some k' →
         keymap (put k v c).2 !! k' = keymap c !! k') ∧
  ((size c =? limit c)%Z = true →
     ∃ h kh, hd_error l = Some h ∧ key_of (store c) h = Some kh ∧ kh ≠ k ∧
             kh ≠ "__proto__" ∧
             (put k v c).1 = Some h ∧ keymap (put k v c).2 !! kh = None).
Proof.
  intros [Hl Hall] Hpl Hkp Hk Hlim. cbv zeta.
  assert (linked (put k v c).2
            (if (size c =? limit c)%Z then drop 1 l ++ [length (store c)]
             else l ++ [length (store c)])) as Hl'.
  { apply linked_put; [done|by right|]. intros h _. by rewrite Hpl. }
  pose proof Hl as ((Hnd & Hh & Ht & _) & Hsz & Hi).
  destruct (Z.eqb_spec (size c) (limit c)) as [E|E].
  - destruct l as [|h l0]; [simpl in Hsz; lia|].
    cbn [drop hd_error] in *. rewrite drop_0 in *.
    assert (h < length (store c)) as Hlt by (apply (linked_lt _ _ _ Hl); by left).
    destruct (Hall h) as [kh Hkh]; [by left|].
    destruct (Hi _ _ Hkh) as [_ Hkey].
    assert (kh ≠ k) as Hne by (intros ->; congruence).
    assert (kh ≠ "__proto__") as Hnp by (intros ->; congruence).
    assert (head (put_linked k v c) = Some h) as Hh1.
    { rewrite put_linked_head, Ht, last_cons, Hh. by destruct (last l0). }
    assert (keymap (put k v c).2 =
            delete kh (<[k:=length (store c)]> (keymap c))) as Hkm.
    { rewrite put_keymap. apply Z.eqb_eq in E. rewrite E, Hh1, put_linked_key.
      rewrite decide_False by lia. rewrite Hkey. by apply keymap_delete_key. }
    rewrite Hkm.
    split; [split; [done|]|split; [|split]].
    + intros a Ha. rewrite Hkm.
      apply NoDup_cons in Hnd as [Hhl _].
      apply elem_of_app in Ha as [Ha|Ha%list_elem_of_singleton].
      * destruct (Hall a) as [ka Hka]; [by right|]. exists ka.
        rewrite lookup_delete_ne, lookup_insert_ne; [done|congruence|].
        intros ->. rewrite Hkh in Hka. injection Hka as ->. done.
      * subst a. exists k. by rewrite lookup_delete_ne, lookup_insert_eq.
    + by rewrite lookup_delete_ne, lookup_insert_eq.
    + intros k' Hk' Hkh'. simpl in Hkh'. rewrite Hkey in Hkh'.
      rewrite lookup_delete_ne, lookup_insert_ne; [done..|congruence].
    + intros _. exists h, kh. do 4 (split; [done|]).
      split; [|apply lookup_delete_eq].
      rewrite put_result. apply Z.eqb_eq in E. by rewrite E.
  - assert (keymap (put k v c).2 = <[k:=length (store c)]> (keymap c)) as Hkm.
    { rewrite put_keymap. apply Z.eqb_neq in E. by rewrite E. }
    rewrite Hkm.
    split; [split; [done|]|split; [|split]].
    + intros a Ha. rewrite Hkm.
      apply elem_of_app in Ha as [Ha|Ha%list_elem_of_singleton].
      * destruct (Hall a Ha) as [ka Hka]. exists ka.
        rewrite lookup_insert_ne; [done|congruence].
      * subst a. exists k. apply lookup_insert_eq.
    + apply lookup_insert_eq.
    + intros k' Hk' _. by rewrite lookup_insert_ne.
    + done.
Qed.

Lemma tidy_get k r c l :
  tidy c l → plain_index c → ordinary k →
  ∃ res c' l', get k r c = Some (res, c') ∧ tidy c' l' ∧ plain_index c'.
Proof.
  intros Ht Hp Hk. pose proof (find_ordinary k c Hk Hp) as Hf.
  destruct (keymap c !! k) as [e|] eqn:Ek; simpl in Hf.
  - rewrite (get_found _ _ _ _ Hf).
    destruct (tidy_touch e r c l Ht) as (l' & Ht' & _).
    { by apply (proj2 (proj2 (proj1 Ht)) _ _ Ek). }
    exists (touch e r c).1, (touch e r c).2, l'.
    split; [by destruct (touch e r c)|]. split; [done|by apply plain_touch].
  - rewrite (get_absent _ _ _ Hf). by exists GetUndefined, c, l.
Qed.

Lemma tidy_remove k c l :
  tidy c l → plain_index c → ordinary k →
  ∃ old c' l', remove k c = Some (old, c') ∧ tidy c' l' ∧ plain_index c'.
Proof.
  intros Ht Hp Hk. pose proof (find_ordinary k c Hk Hp) as Hf.
  destruct (keymap c !! k) as [e|] eqn:Ek; simpl in Hf.
  - rewrite (remove_found _ _ _ Hf).
    destruct (tidy_unlink e c l Ht) as [l' Ht'].
    { by apply (proj2 (proj2 (proj1 Ht)) _ _ Ek). }
    { by rewrite Hp. }
    exists (unlink e c).1, (unlink e c).2, l'.
    split; [by destruct (unlink e c)|]. split; [done|by apply plain_unlink].
  - rewrite (remove_absent _ _ Hf). by exists None, c, l.
Qed.

Lemma tidy_set k (v : V) c l :
  tidy c l → plain_index c → ordinary k → limit c ≠ 0%Z →
  ∃ old c' l', set k v c = Some (old, c') ∧ tidy c' l' ∧ plain_index c'.
Proof.
  intros Ht Hp Hk Hlim. pose proof (find_ordinary k c Hk Hp) as Hf.
  destruct (keymap c !! k) as [e|] eqn:Ek; simpl in Hf.
  - rewrite (set_present _ _ _ _ Hf). cbv zeta.
    destruct (tidy_touch e true c l Ht) as (l' & Ht' & _).
    { by apply (proj2 (proj2 (proj1 Ht)) _ _ Ek). }
    eexists _, _, l'. split; [done|].
    split; [by apply tidy_set_value|by apply plain_touch].
  - rewrite (set_absent_result _ _ _ Hf).
    destruct (tidy_put k v c l Ht Hp (ordinary_ne _ Hk) Ek Hlim) as [H _].
    cbv zeta in H. eexists _, _, _. split; [done|]. split; [exact H|].
    by apply plain_put; [apply Hk|].
Qed.

End TidyLemmas.

(** X13. A cache that is tidy (the chain and the index hold the same
    entries) and whose index has no prototype entry stays so under [get],
    [remove], [removeAll] and, when its limit is not 0, [set], for keys that
    are not names of properties of [Object.prototype]; a new cache is in that
    state, and a tidy cache satisfies the invariant.  So a cache that is used
    through these methods and such keys only, never through [put] or
    [shift], keeps one entry per key. *)
Theorem Tidy_preserved {V : Type} (c : LRUCache V) :
  (∀ lim, Tidy (@construct V lim) ∧ plain_index (@construct V lim)) ∧
  (Tidy c → plain_index c →
   Inv c ∧
   (∀ k r, ordinary k →
      ∃ res c', get k r c = Some (res, c') ∧ Tidy c' ∧ plain_index c') ∧
   (∀ k v, limit c ≠ 0%Z → ordinary k →
      ∃ old c', set k v c = Some (old, c') ∧ Tidy c' ∧ plain_index c') ∧
   (∀ k, ordinary k →
      ∃ old c', remove k c = Some (old, c') ∧ Tidy c' ∧ plain_index c') ∧
   Tidy (removeAll c) ∧ plain_index (removeAll c)).
Proof.
  split.
  { intros lim. split; [eexists; apply tidy_construct|apply plain_construct]. }
  intros [l Ht] Hp. split; [exists l; apply Ht|].
  split.
  { intros k r Hk. destruct (tidy_get k r c l Ht Hp Hk) as (res & c' & l' & H & H' & H'').
    exists res, c'. split; [done|]. split; [by exists l'|done]. }
  split.
  { intros k v Hlim Hk.
    destruct (tidy_set k v c l Ht Hp Hk Hlim) as (old & c' & l' & H & H' & H'').
    exists old, c'. split; [done|]. split; [by exists l'|done]. }
  split.
  { intros k Hk. destruct (tidy_remove k c l Ht Hp Hk) as (old & c' & l' & H & H' & H'').
    exists old, c'. split; [done|]. split; [by exists l'|done]. }
  split; [eexists; apply tidy_removeAll|apply plain_removeAll].
Qed.

Lemma tidy_cache_ab : tidy cache_ab [11; 12].
Proof.
  split; [apply linked_cache_ab|].
  intros a [->|[->|Ha%elem_of_nil]%elem_of_cons]%elem_of_cons; [| |done].
  - by exists "a".
  - by exists "b".
Qed.

Lemma Tidy_cache_ab : Tidy cache_ab.
Proof. exists [11; 12]. apply tidy_cache_ab. Qed.

Lemma Tidy_preserved_witness :
  Tidy cache_ab ∧ plain_index cache_ab ∧
  (∃ old c', set "c" 3%Z cache_ab = Some (old, c') ∧ Tidy c' ∧ plain_index c') ∧
  (∃ old c', remove "a" cache_ab = Some (old, c') ∧ Tidy c' ∧ plain_index c').
Proof.
  split; [apply Tidy_cache_ab|]. split; [apply plain_cache_ab|].
  destruct (Tidy_preserved cache_ab) as [_ H].
  destruct (H Tidy_cache_ab plain_cache_ab) as (_ & _ & Hset & Hrem & _).
  split; [apply Hset; [vm_compute; discriminate|apply ordinary_c]|].
  apply Hrem, ordinary_a.
Defined.

Lemma put_tail_found {V : Type} (k : string) (v : V) (c : LRUCache V) :
  keymap (put k v c).2 !! k = Some (length (store c)) →
  ∀ r, get k r (put k v c).2 =
       Some (get_return r (store (put k v c).2) (length (store c)), (put k v c).2).
Proof.
  intros Hk r. apply get_tail; [by apply keymap_get_own|apply put_tail].
Qed.

(** X14. On a tidy cache whose limit is not 0 and whose index has no
    prototype entry, whatever [set key value] stores under a key that is not
    the name of a property of [Object.prototype] is what [get key] then
    returns: [set] leaves [key] indexed, on the last entry of the chain,
    holding [value], and [get] leaves the cache as it is. *)
Theorem set_get {V : Type} (k : string) (v : V) (c : LRUCache V) :
  Tidy c → plain_index c → limit c ≠ 0%Z → ordinary k →
  ∃ old c', set k v c = Some (old, c') ∧
    get k false c' = Some (GetValue v, c') ∧
    ∃ e, find k c' = Found e ∧ tail c' = Some e ∧
         key_value (store c') e = Some (Some k, Some v) ∧
         get k true c' = Some (GetEntry e, c').
Proof.
  intros [l Ht] Hp Hlim Hk.
  assert (∃ old c' e, set k v c = Some (old, c') ∧
            keymap c' !! k = Some e ∧ tail c' = Some e ∧
            e < length (store c') ∧
            key_of (store c') e = Some k ∧
            value_of (store c') e = Some v)
    as (old & c' & e & Hs & He & Htl & Hlt & Hke & Hve).
  { pose proof (find_ordinary k c Hk Hp) as Hf.
    destruct (keymap c !! k) as [e|] eqn:Ek; simpl in Hf.
    - pose proof Ht as [Hl _].
      destruct (proj2 (proj2 Hl) _ _ Ek) as [Hin Hkey].
      pose proof (linked_lt _ _ _ Hl Hin) as Hlt.
      rewrite (set_present _ _ _ _ Hf). cbv zeta. eexists _, _, e.
      split; [done|]. fields.
      rewrite touch_keymap, key_set_value, touch_key, value_set_value.
      rewrite length_set_value, touch_length, touch_tail_after.
      by rewrite !decide_True.
    - rewrite (set_absent_result _ _ _ Hf). eexists _, _, (length (store c)).
      split; [done|].
      destruct (tidy_put k v c l Ht Hp (ordinary_ne _ Hk) Ek Hlim) as (_ & Hk' & _).
      rewrite put_tail, put_key, put_value, put_length.
      rewrite !decide_True by done. split; [done|]. split; [done|]. split; [lia|done]. }
  assert (find k c' = Found e) as Hf' by by apply keymap_get_own.
  exists old, c'. split; [done|].
  rewrite !(get_tail _ _ _ _ Hf' Htl). unfold get_return. rewrite Hve.
  split; [done|]. exists e. rewrite key_value_alt, Hke, Hve.
  by rewrite decide_True.
Qed.

Lemma set_get_witness :
  Tidy cache_ab ∧ plain_index cache_ab ∧ limit cache_ab ≠ 0%Z ∧ ordinary "c" ∧
  ∃ old c', set "c" 3%Z cache_ab = Some (old, c') ∧
            get "c" false c' = Some (GetValue 3%Z, c').
Proof.
  assert (limit cache_ab ≠ 0%Z) as Hlim by (vm_compute; discriminate).
  split; [apply Tidy_cache_ab|]. split; [apply plain_cache_ab|].
  split; [exact Hlim|]. split; [apply ordinary_c|].
  destruct (set_get "c" 3%Z cache_ab Tidy_cache_ab plain_cache_ab Hlim ordinary_c)
    as (old & c' & Hs & Hg & _).
  exists old, c'. split; [exact Hs|exact Hg].
Defined.

Lemma keys_elem {V : Type} (c : LRUCache V) :
  NoDup (keys c) ∧
  ∀ k, k ∈ keys c ↔ k ≠ "__proto__" ∧ is_Some (keymap c !! k).
Proof.
  unfold keys. split; [apply NoDup_elements|].
  intros k. rewrite elem_of_elements, elem_of_dom, lookup_delete_is_Some.
  split; (intros [H1 H2]; split; [congruence|done]).
Qed.

Lemma length_omap_le {A B : Type} (f : A → option B) (l : list A) :
  length (omap f l) ≤ length l.
Proof.
  induction l as [|a l IH]; [done|].
  change (omap f (a :: l))
    with (match f a with Some y => y :: omap f l | None => omap f l end).
  destruct (f a); simpl; lia.
Qed.

Lemma length_omap_all {A B : Type} (f : A → option B) (l : list A) :
  (∀ a, a ∈ l → is_Some (f a)) → length (omap f l) = length l.
Proof.
  induction l as [|a l IH]; intros H; [done|].
  change (omap f (a :: l))
    with (match f a with Some y => y :: omap f l | None => omap f l end).
  destruct (H a) as [y ->]; [by left|]. simpl. f_equal. apply IH.
  intros b Hb. apply H. by right.
Qed.

Lemma NoDup_omap {A B : Type} (f : A → option B) (l : list A) :
  NoDup l →
  (∀ a b y, a ∈ l → b ∈ l → f a = Some y → f b = Some y → a = b) →
  NoDup (omap f l).
Proof.
  intros Hnd. induction Hnd as [|a l Ha Hnd IH]; intros Hinj; [constructor|].
  change (omap f (a :: l))
    with (match f a with Some y => y :: omap f l | None => omap f l end).
  assert (NoDup (omap f l)) as Hnd'.
  { apply IH. intros b b' y Hb Hb'. apply Hinj; by right. }
  destruct (f a) as [y|] eqn:Ey; [|done]. constructor; [|done].
  intros (b & Hb & Hy)%list_elem_of_omap. apply Ha.
  assert (a = b) as ->; [|done]. apply (Hinj a b y); [by left|by right|done..].
Qed.

(** X15. Under the invariant, [keys] lists at most [size] keys; on a tidy
    cache whose index has no prototype entry it lists exactly [size] keys,
    the keys of the entries of the chain. *)
Theorem keys_count {V : Type} (c : LRUCache V) (l : list addr) :
  linked c l →
  (Z.of_nat (length (keys c)) ≤ size c)%Z ∧
  (tidy c l → plain_index c →
   Z.of_nat (length (keys c)) = size c ∧
   keys c ≡ₚ omap (key_of (store c)) l).
Proof.
  intros Hl. pose proof Hl as ((Hndl & _) & Hsz & Hi).
  destruct (keys_elem c) as [Hnd Hin].
  assert (∀ k, k ∈ keys c → k ∈ omap (key_of (store c)) l) as Hsub.
  { intros k [_ [a Ha]]%Hin. destruct (Hi _ _ Ha) as [Hal Hkey].
    apply list_elem_of_omap. by exists a. }
  split.
  { rewrite Hsz. apply inj_le.
    etransitivity; [|apply (length_omap_le (key_of (store c)))].
    apply submseteq_length. by apply NoDup_submseteq. }
  intros [_ Hall] Hp.
  assert (∀ a, a ∈ l → ∃ k, keymap c !! k = Some a ∧ key_of (store c) a = Some k)
    as Hall'.
  { intros a Ha. destruct (Hall a Ha) as [k Hk]. exists k.
    split; [done|]. by apply Hi. }
  assert (keys c ≡ₚ omap (key_of (store c)) l) as Hperm.
  { apply NoDup_Permutation; [done| |].
    - apply NoDup_omap; [done|]. intros a b y Ha Hb Hya Hyb.
      destruct (Hall' a Ha) as (ka & Hka & Hkeya).
      destruct (Hall' b Hb) as (kb & Hkb & Hkeyb). congruence.
    - intros k. split; [apply Hsub|].
      intros (a & Ha & Hy)%list_elem_of_omap.
      destruct (Hall' a Ha) as (ka & Hka & Hkeya).
      assert (ka = k) as -> by congruence.
      apply Hin. split; [|by eexists]. intros ->. by rewrite Hp in Hka. }
  split; [|done].
  rewrite Hperm, length_omap_all, Hsz; [done|].
  intros a Ha. destruct (Hall' a Ha) as (k & _ & ->). by eexists.
Qed.

Lemma keys_count_witness :
  linked cache_ab [11; 12] ∧ tidy cache_ab [11; 12] ∧ plain_index cache_ab ∧
  Z.of_nat (length (keys cache_ab)) = size cache_ab.
Proof.
  split; [apply linked_cache_ab|]. split; [apply tidy_cache_ab|].
  split; [apply plain_cache_ab|].
  destruct (keys_count cache_ab [11; 12] linked_cache_ab) as [_ H].
  apply (H tidy_cache_ab plain_cache_ab).
Defined.

(** X16. [set] of a new key on a full, tidy cache, with an index without
    prototype entry and a key that is not the name of a property of
    [Object.prototype]: it evicts the least recently used entry, the head of
    the chain, and returns the value of that entry (it has one where
    references are valid); the index no longer
    holds the key of that entry, the new key is found, every other key is
    found as before, the rest of the chain keeps its order with the new
    entry last, and [size] stays at [limit]. *)
Theorem set_evicts_lru {V : Type} (k : string) (v : V) (c : LRUCache V)
    (h : addr) (l : list addr) :
  tidy c (h :: l) → plain_index c → ordinary k →
  keymap c !! k = None → size c = limit c →
  ∃ c', set k v c = Some (value_of (store c) h, c') ∧
  (wf c → is_Some (value_of (store c) h)) ∧
  (∃ kh, key_of (store c) h = Some kh ∧ kh ≠ k ∧ find kh c = Found h ∧
         keymap c' !! kh = None ∧ (ordinary kh → find kh c' = Undefined) ∧
         ∀ k', k' ≠ k → k' ≠ kh → find k' c' = find k' c) ∧
  find k c' = Found (length (store c)) ∧
  entries c' = Some (l ++ [length (store c)]) ∧
  size c' = limit c' ∧ tidy c' (l ++ [length (store c)]) ∧ plain_index c'.
Proof.
  intros Ht Hp Hord Hk Hsz. pose proof Ht as [Hl Hall].
  assert (limit c ≠ 0%Z) as Hlim.
  { destruct Hl as (_ & Hs & _). rewrite <- Hsz, Hs. simpl. lia. }
  assert (h < length (store c)) as Hlt by (apply (linked_lt _ _ _ Hl); by left).
  destruct (tidy_put k v c (h :: l) Ht Hp (ordinary_ne _ Hord) Hk Hlim)
    as (Ht' & Hk' & Hother & Hev).
  cbv zeta in Ht'. pose proof Hsz as Hsz'. apply Z.eqb_eq in Hsz'.
  rewrite Hsz' in Ht', Hev. cbn [drop] in Ht'. rewrite drop_0 in Ht'.
  destruct (Hev eq_refl) as (h' & kh & [= <-] & Hkey & Hne & Hnp & Hres & Hgone).
  assert (find k c = Undefined) as Hf.
  { rewrite find_ordinary by done. by rewrite Hk. }
  assert (plain_index (put k v c).2) as Hp'.
  { by apply plain_put; [apply Hord|]. }
  exists (put k v c).2. rewrite (set_absent_result _ _ _ Hf), Hres. simpl.
  split. { do 2 f_equal. rewrite put_value. by rewrite decide_False by lia. }
  split.
  { intros (_ & _ & Hwk & _). destruct (Hall h) as [kh' Hkh']; [by left|].
    by apply (Hwk kh' h). }
  split.
  { exists kh. do 2 (split; [done|]).
    destruct (Hall h) as [kh' Hkh']; [by left|].
    destruct (proj2 (proj2 Hl) _ _ Hkh') as [_ Hkey'].
    assert (kh' = kh) as -> by congruence.
    split; [by apply keymap_get_own|]. split; [done|].
    split. { intros Hokh. rewrite find_ordinary by done. by rewrite Hgone. }
    intros k' H1 H2. unfold find, keymap_get.
    rewrite Hother; [|done|simpl; rewrite Hkey; congruence].
    destruct (keymap c !! k'); [done|]. case_decide; [done|].
    by rewrite Hp, Hp'. }
  split; [by apply keymap_get_own|]. split; [apply linked_entries, Ht'|].
  split; [by rewrite put_size, put_limit, Hsz'|done].
Qed.

Lemma tidy_cache_full : tidy cache_full [11].
Proof.
  split; [apply linked_cache_full|].
  intros a ->%list_elem_of_singleton. by exists "a".
Qed.

Lemma set_evicts_lru_witness :
  tidy cache_full (11 :: []) ∧ plain_index cache_full ∧ ordinary "b" ∧
  keymap cache_full !! "b" = None ∧
  size cache_full = limit cache_full ∧
  ∃ c', set "b" 2%Z cache_full = Some (Some 1%Z, c').
Proof.
  assert (plain_index cache_full) as Hp by reflexivity.
  split; [apply tidy_cache_full|]. split; [exact Hp|].
  split; [apply ordinary_b|]. split; [reflexivity|]. split; [reflexivity|].
  destruct (set_evicts_lru "b" 2%Z cache_full 11 [] tidy_cache_full Hp ordinary_b
              eq_refl eq_refl) as (c' & Hr & _).
  by exists c'.
Defined.

(** ** [put] then [get], [remove] twice, and what [remove] leaves behind *)

(** X17. In every state, [put] on a cache that is not full ([size] is not
    [limit]) evicts nothing, and what it has put is what [find] and [get]
    then return for that key, whether or not the key was indexed before;
    [get] finds the entry last and leaves the cache as it is. *)
Theorem put_get {V : Type} (k : string) (v : V) (c : LRUCache V) :
  size c ≠ limit c →
  let c' := (put k v c).2 in
  (put k v c).1 = None ∧
  find k c' = Found (length (store c)) ∧
  key_value (store c') (length (store c)) = Some (Some k, Some v) ∧
  get k false c' = Some (GetValue v, c') ∧
  get k true c' = Some (GetEntry (length (store c)), c') ∧
  size c' = (size c + 1)%Z.
Proof.
  intros Hsz. cbv zeta. pose proof Hsz as Hsz'. apply Z.eqb_neq in Hsz'.
  assert (keymap (put k v c).2 !! k = Some (length (store c))) as Hk.
  { rewrite put_keymap, Hsz'. apply lookup_insert_eq. }
  pose proof (put_key k v c (length (store c))) as Hpk.
  pose proof (put_value k v c (length (store c))) as Hpv.
  rewrite decide_True in Hpk by done. rewrite decide_True in Hpv by done.
  split; [by rewrite put_result, Hsz'|]. split; [by apply keymap_get_own|].
  split.
  { rewrite key_value_alt, Hpk, Hpv, put_length. by rewrite decide_True by lia. }
  rewrite !(put_tail_found _ _ _ Hk). unfold get_return. rewrite Hpv.
  do 2 (split; [done|]). by rewrite put_size, Hsz'.
Qed.

Lemma put_get_witness :
  size cache_ab ≠ limit cache_ab ∧
  get "a" false (put "a" 9%Z cache_ab).2 =
    Some (GetValue 9%Z, (put "a" 9%Z cache_ab).2).
Proof.
  assert (size cache_ab ≠ limit cache_ab) as Hsz by (vm_compute; discriminate).
  split; [exact Hsz|].
  apply (put_get "a" 9%Z cache_ab Hsz).
Defined.

(** X18. On an index without prototype entry, in every state whose
    references are valid, a second [remove] of the same key, one that is not
    the name of a property of [Object.prototype], finds nothing: it returns
    nothing and changes nothing, so [size] is decremented once. *)
Theorem remove_twice {V : Type} (k : string) (c : LRUCache V) :
  wf c → plain_index c → ordinary k →
  ∃ old c', remove k c = Some (old, c') ∧ remove k c' = Some (None, c') ∧
            (size c' = size c ∨ size c' = (size c - 1)%Z).
Proof.
  intros Hwf Hp Hk. destruct (remove_spec k c Hwf Hp Hk) as [Hown Habs].
  destruct (keymap c !! k) as [e|] eqn:Ek.
  - destruct (Hown e eq_refl) as (c' & Hr & _ & _ & _ & _ & _ & _ & Hsz & Hf & _).
    exists (value_of (store c) e), c'. split; [done|].
    split; [by apply remove_absent|by right].
  - exists None, c. rewrite (Habs eq_refl). split; [done|]. split; [done|by left].
Qed.

Lemma remove_twice_witness :
  wf cache_ab ∧ plain_index cache_ab ∧ ordinary "a" ∧
  ∃ old c', remove "a" cache_ab = Some (old, c') ∧
            remove "a" c' = Some (None, c').
Proof.
  split; [apply wf_cache_ab|]. split; [apply plain_cache_ab|].
  split; [apply ordinary_a|].
  destruct (remove_twice "a" cache_ab wf_cache_ab plain_cache_ab ordinary_a)
    as (old & c' & H1 & H2 & _).
  exists old, c'. split; [exact H1|exact H2].
Defined.

Lemma seg_links_in {V : Type} (st : list (Entry V)) p l n a b :
  seg st p l n → a ∈ l →
  (newer_of st a = Some b → b ∈ l ∨ n = Some b) ∧
  (older_of st a = Some b → b ∈ l ∨ p = Some b).
Proof.
  intros Hs (l1 & l2 & ->)%list_elem_of_split.
  apply seg_middle in Hs as (_ & _ & Ho & Hn & _). rewrite Ho, Hn. split.
  - destruct l2 as [|y l2]; simpl; [by right|]. intros [= <-]. left.
    apply elem_of_app. right. right. by left.
  - destruct (last l1) as [y|] eqn:El; simpl; [|by right]. intros [= <-]. left.
    apply elem_of_app. left. by apply last_Some_elem_of.
Qed.

(** The chain after [remove], whatever the index holds. *)
Lemma chain_unlink {V : Type} (c : LRUCache V) (l1 l2 : list addr) (e : addr) :
  chain (store c) (l1 ++ e :: l2) (head c) (tail c) →
  let c' := (unlink e c).2 in
  chain (store c') (l1 ++ l2) (head c') (tail c').
Proof.
  intros Hc. cbv zeta.
  set (c0 := mkCache (limit c) (Z.of_nat (length (l1 ++ e :: l2))) ∅
                     (head c) (tail c) (store c)).
  assert (linked c0 (l1 ++ e :: l2)) as Hl0.
  { split; [done|]. split; [done|]. intros k a Hka. simpl in Hka.
    by rewrite lookup_empty in Hka. }
  destruct (linked_unlink c0 l1 e l2 Hl0) as [Hc' _]; [done|].
  revert Hc'. unfold unlink, c0. fields.
  by destruct (newer_of (store c) e), (older_of (store c) e).
Qed.

(** X19. Under the invariant, the entry that [remove] takes out under a key
    that the index holds, other than ["__proto__"], is referenced by nothing
    that is left: not by [head] or [tail], not by the index, and not by a
    link of an entry of the chain.  Its own links are left as they were
    ([shift] clears them, [remove] does not). *)
Theorem remove_unreferenced {V : Type} (k : string) (c : LRUCache V)
    (l1 l2 : list addr) (e : addr) :
  linked c (l1 ++ e :: l2) → keymap c !! k = Some e → k ≠ "__proto__" →
  ∃ c', remove k c = Some (value_of (store c) e, c') ∧
  head c' ≠ Some e ∧ tail c' ≠ Some e ∧
  (∀ k', keymap c' !! k' ≠ Some e) ∧
  (∀ a, a ∈ l1 ++ l2 →
        newer_of (store c') a ≠ Some e ∧ older_of (store c') a ≠ Some e) ∧
  newer_of (store c') e = newer_of (store c) e ∧
  older_of (store c') e = older_of (store c) e.
Proof.
  intros Hl Hk Hnp. exists (unlink e c).2.
  rewrite (remove_found k c e) by by apply keymap_get_own.
  split.
  { rewrite (surjective_pairing (unlink e c)) at 1. by rewrite unlink_result. }
  assert (keymap c !! "__proto__" ≠ Some e) as Hpe.
  { intros Hpe. pose proof (proj2 (proj2 Hl)) as Hi.
    destruct (Hi _ _ Hpe) as [_ H1]. destruct (Hi _ _ Hk) as [_ H2]. congruence. }
  pose proof (linked_unlink c l1 e l2 Hl Hpe) as Hl'.
  pose proof Hl as ((Hnd & _ & _ & Hs) & _).
  assert (e ∉ l1 ++ l2) as He.
  { apply NoDup_app in Hnd as (_ & Hd & [He2 _]%NoDup_cons).
    intros [Hin|Hin]%elem_of_app; [|done]. eapply Hd; [exact Hin|by left]. }
  pose proof Hl' as ((_ & Hh & Ht & Hs') & _ & Hi').
  split. { rewrite Hh. intros Hx. apply He. by apply head_Some_elem_of. }
  split. { rewrite Ht. intros Hx. apply He. by apply last_Some_elem_of. }
  split. { intros k' Hk'. apply He. by apply (Hi' _ _ Hk'). }
  split.
  { intros a Ha.
    destruct (seg_links_in _ _ _ _ a e Hs' Ha) as [Hn Ho].
    split; intros Hx; [destruct (Hn Hx)|destruct (Ho Hx)]; done. }
  assert (e < length (store c)) as Hlt.
  { apply (linked_lt _ _ _ Hl). apply elem_of_app. right. by left. }
  apply seg_middle in Hs as (_ & _ & Ho & Hn & _).
  rewrite from_option_Some_None in Ho, Hn.
  assert (∀ y, hd_error l2 = Some y → y ≠ e) as Hy.
  { intros y Hy ->. apply He. apply elem_of_app. right.
    by apply head_Some_elem_of. }
  assert (∀ z, last l1 = Some z → z ≠ e) as Hz.
  { intros z Hz ->. apply He. apply elem_of_app. left.
    by apply last_Some_elem_of. }
  unfold unlink. rewrite Hn, Ho.
  destruct (hd_error l2) as [y|] eqn:E2; destruct (last l1) as [z|] eqn:E1;
    fields; autorewrite with store; rewrite ?Hn, ?Ho;
    rewrite ?decide_False by first [by apply Hy|by apply Hz]; done.
Qed.

Lemma remove_unreferenced_witness :
  linked cache_ab ([] ++ 11 :: [12]) ∧ keymap cache_ab !! "a" = Some 11 ∧
  "a" ≠ "__proto__" ∧
  ∃ c', remove "a" cache_ab = Some (Some 1%Z, c') ∧ head c' ≠ Some 11.
Proof.
  assert ("a" ≠ "__proto__") as Hne by done.
  split; [apply linked_cache_ab|]. split; [reflexivity|]. split; [exact Hne|].
  destruct (remove_unreferenced "a" cache_ab [] [12] 11 linked_cache_ab eq_refl Hne)
    as (c' & Hr & Hh & _).
  exists c'. split; [exact Hr|exact Hh].
Defined.

(** ** Keys that [Object.prototype] knows *)

(** X20. [put("__proto__", value)] on a cache that is not full, under the
    invariant: the new entry becomes the prototype of the index, so [find]
    returns it, but the index has no new property and [keys] lists what it
    listed.  [remove("__proto__")] then returns the value and unlinks the
    entry, the chain and [size] are what they were before the [put], but
    [delete] has nothing to delete: [find("__proto__")] still returns the
    removed entry, and the invariant is lost. *)
Theorem proto_key_survives_remove {V : Type} (v : V) (c : LRUCache V)
    (l : list addr) :
  linked c l → size c ≠ limit c →
  let new := length (store c) in
  let c1 := (put "__proto__" v c).2 in
  find "__proto__" c1 = Found new ∧ ("__proto__" ∉ keys c1) ∧
  keys c1 = keys c ∧ size c1 = (size c + 1)%Z ∧
  ∃ c2, remove "__proto__" c1 = Some (Some v, c2) ∧
        size c2 = size c ∧ keys c2 = keys c ∧
        entries c2 = Some l ∧ (new ∉ l) ∧
        find "__proto__" c2 = Found new ∧
        ¬ Inv c2.
Proof.
  intros Hl Hsz. cbv zeta.
  destruct (linked_put_room "__proto__" v c l Hl Hsz) as (_ & Hp & Hl1).
  set (new := length (store c)) in *.
  assert (keymap (put "__proto__" v c).2 = <["__proto__":=new]> (keymap c)) as Hkm1.
  { rewrite Hp. cbn [with_size keymap]. apply put_linked_keymap. }
  assert (find "__proto__" (put "__proto__" v c).2 = Found new) as Hf1.
  { apply keymap_get_own. rewrite Hkm1. apply lookup_insert_eq. }
  assert (keys (put "__proto__" v c).2 = keys c) as Hkeys1.
  { unfold keys. by rewrite Hkm1, delete_insert_eq. }
  assert (new ∉ l) as Hnew.
  { intros Hin. apply (linked_lt _ _ _ Hl) in Hin. unfold new in Hin. lia. }
  split; [done|].
  split. { intros [H _]%(proj2 (keys_elem _)). done. }
  split; [done|].
  split. { rewrite put_size. destruct (Z.eqb_spec (size c) (limit c)); [done|lia]. }
  exists (unlink new (put "__proto__" v c).2).2.
  rewrite (remove_found _ _ _ Hf1).
  assert (keymap (unlink new (put "__proto__" v c).2).2 =
          <["__proto__":=new]> (keymap c)) as Hkm2.
  { rewrite unlink_keymap, put_key, decide_True by done.
    unfold keymap_delete. by rewrite decide_True. }
  assert (entries (unlink new (put "__proto__" v c).2).2 = Some l) as He.
  { apply chain_entries. rewrite <- (app_nil_r l) at 1.
    apply chain_unlink. apply Hl1. }
  split.
  { rewrite (surjective_pairing (unlink new (put "__proto__" v c).2)) at 1.
    rewrite unlink_result, put_value. by rewrite decide_True. }
  split. { rewrite unlink_size, put_size.
           destruct (Z.eqb_spec (size c) (limit c)); [done|lia]. }
  split. { unfold keys. by rewrite Hkm2, delete_insert_eq. }
  split; [done|]. split; [done|].
  split. { apply keymap_get_own. rewrite Hkm2. apply lookup_insert_eq. }
  intros [l' Hl'].
  pose proof (linked_entries _ _ Hl') as He'. rewrite He in He'.
  injection He' as <-.
  destruct (proj2 (proj2 Hl') "__proto__" new) as [Hin _]; [|done].
  rewrite Hkm2. apply lookup_insert_eq.
Qed.

Lemma proto_key_survives_remove_witness :
  linked cache_a [11] ∧ size cache_a ≠ limit cache_a ∧
  find "__proto__" (put "__proto__" 2%Z cache_a).2 = Found 12 ∧
  ∃ c2, remove "__proto__" (put "__proto__" 2%Z cache_a).2 = Some (Some 2%Z, c2) ∧
        entries c2 = Some [11] ∧ find "__proto__" c2 = Found 12.
Proof.
  assert (size cache_a ≠ limit cache_a) as Hsz by (vm_compute; discriminate).
  split; [apply linked_cache_a|]. split; [exact Hsz|].
  destruct (proto_key_survives_remove 2%Z cache_a [11] linked_cache_a Hsz)
    as (Hf & _ & _ & _ & c2 & Hr & _ & _ & He & _ & Hf2 & _).
  split; [exact Hf|]. exists c2. split; [exact Hr|]. split; [exact He|exact Hf2].
Defined.

Lemma inherited_proto : inherited "__proto__" = None.
Proof. reflexivity. Qed.

(** X21. A key that the index does not hold but under which
    [Object.prototype] holds a function, on an index without prototype
    entry, in every state whose references are valid: [find] returns the
    function, one of the objects that were allocated before any entry,
    although [keys] does not list the key.  [remove] takes the function for
    an entry: it decrements [size].  [set] takes it for the entry of the key:
    it writes the value into the function and makes it the tail, puts
    nothing, and leaves [size] and [keys] as they were. *)
Theorem inherited_key_found {V : Type} (k : string) (v : V) (c : LRUCache V)
    (f : addr) :
  wf c → plain_index c → keymap c !! k = None → inherited k = Some f →
  find k c = Found f ∧ (k ∉ keys c) ∧
  f < length object_prototype_functions ∧
  (∃ c', remove k c = Some (value_of (store c) f, c') ∧
         size c' = (size c - 1)%Z ∧ (k ∉ keys c')) ∧
  (∃ c', set k v c = Some (value_of (store c) f, c') ∧
         size c' = size c ∧ keys c' = keys c ∧
         length (store c') = length (store c) ∧
         tail c' = Some f ∧ value_of (store c') f = Some v ∧
         find k c' = Found f).
Proof.
  intros Hwf Hp Hk Hf.
  assert (k ≠ "__proto__") as Hnp.
  { intros ->. by rewrite inherited_proto in Hf. }
  assert (∀ c' : LRUCache V, keymap c' = keymap c → find k c' = Found f) as Hfind.
  { intros c' Hkm. unfold find, keymap_get. rewrite Hkm, Hk.
    rewrite decide_False by done. by rewrite Hp, Hf. }
  pose proof (Hfind c eq_refl) as Hfc.
  pose proof (inherited_lt _ _ Hf) as Hlt.
  assert (f < length (store c)) as Hlt'.
  { destruct Hwf as (_ & _ & _ & _ & Hr). lia. }
  split; [done|].
  split. { intros [_ [a Ha]]%(proj2 (keys_elem _)). congruence. }
  split; [done|]. split.
  - exists (unlink f c).2. rewrite (remove_found _ _ _ Hfc).
    split.
    { rewrite (surjective_pairing (unlink f c)) at 1. by rewrite unlink_result. }
    split; [apply unlink_size|].
    intros [_ [a Ha]]%(proj2 (keys_elem _)).
    rewrite unlink_keymap in Ha. apply keymap_delete_Some in Ha. congruence.
  - rewrite (set_present _ _ _ _ Hfc). cbv zeta. rewrite touch_value.
    eexists. split; [reflexivity|]. fields.
    rewrite touch_size, length_set_value, touch_length, touch_tail_after.
    rewrite value_set_value, touch_length, !decide_True by done.
    split; [done|].
    split. { unfold keys. fields. by rewrite touch_keymap. }
    do 3 (split; [done|]). apply Hfind. fields. apply touch_keymap.
Qed.

Lemma inherited_key_found_witness :
  wf cache_ab ∧ plain_index cache_ab ∧ keymap cache_ab !! "valueOf" = None ∧
  inherited "valueOf" = Some 9 ∧
  find "valueOf" cache_ab = Found 9 ∧
  ∃ c', set "valueOf" 1%Z cache_ab = Some (None, c') ∧
        size c' = size cache_ab ∧ keys c' = keys cache_ab.
Proof.
  split; [apply wf_cache_ab|]. split; [apply plain_cache_ab|].
  split; [reflexivity|]. split; [reflexivity|].
  destruct (inherited_key_found "valueOf" 1%Z cache_ab 9 wf_cache_ab plain_cache_ab
              eq_refl eq_refl) as (Hf & _ & _ & _ & c' & Hs & Hsz & Hk & _).
  split; [exact Hf|]. exists c'. split; [exact Hs|]. split; [exact Hsz|exact Hk].
Defined.
